(** * Bohemian heat map (Portland): geometry kernel, boundary reconstructor,
      grid builder and proximity scorer of [app.js]

    Number model.  JavaScript numbers are modelled by exact values: the
    coordinates, steps and shoelace sums are rationals ([Q], so every
    definition over them evaluates), and the results of [Math.sin],
    [Math.cos], [Math.atan2], [Math.sqrt] and [Math.exp] are real numbers
    ([R]).  [Infinity] is a constructor of its own where the source uses it.
    The rounding of binary64 arithmetic is outside this model. *)

From Stdlib Require Import List ZArith QArith Qround Qabs Qminmax.
From Stdlib Require Import Reals Qreals Psatz Permutation Sorted String.
From stdpp Require Import gmap strings list pretty.
Import ListNotations.

Set Default Proof Using "Type".

(* ================================================================== *)
(** ** Data model *)
(* ================================================================== *)

(** [{ lat, lon }] in degrees. *)
Record Point : Type := { lat : Q; lon : Q }.

(** [{ minLat, maxLat, minLon, maxLon }]; the component type is [Q] for a
    grid cell and an extended rational for [calculateBounds], which starts
    from [Infinity] and [-Infinity]. *)
Record Bounds (N : Type) : Type :=
  { minLat : N; maxLat : N; minLon : N; maxLon : N }.
Arguments minLat {N} _.
Arguments maxLat {N} _.
Arguments minLon {N} _.
Arguments maxLon {N} _.

(** A business record as [loadBusinessesForCategory] builds it; [category]
    is [None] when the property is absent. *)
Record Business : Type :=
  { biz_id : Z; biz_name : string; biz_lat : Q; biz_lon : Q;
    biz_category : option string }.

(** The value of [minDistance]: [Infinity] or a finite distance in km. *)
Inductive Distance : Type :=
| Infinity
| Finite (d : R).

(** A grid cell.  [minDistance] and [businessCount] do not exist on a cell
    until a scoring pass has written them ([None]). *)
Record Cell : Type :=
  { cell_id : nat;
    row : nat;
    col : nat;
    centerLat : Q;
    centerLon : Q;
    geometry : list Point;
    bounds : Bounds Q;
    area : Q;
    proximityScore : R;
    nearestBusiness : option Business;
    minDistance : option Distance;
    businesses : list Business;
    businessCount : option nat;
    businessesByCategory : gmap string (list Business) }.

(** The two globals of [app.js] that the scoring pass reads and writes. *)
Record AppState : Type :=
  { gridCells : list Cell; allBusinesses : list Business }.

(** [PORTLAND_BBOX] and the grid constants. *)
Record Region : Type := { south : Q; west : Q; north : Q; east : Q }.

Definition PORTLAND_BBOX : Region :=
  {| south := 45.43%Q; west := (-122.84)%Q;
     north := 45.65%Q; east := (-122.47)%Q |}.

Definition GRID_SIZE_KM : Q := 0.804%Q.
Definition GRID_LAT_STEP : Q := 0.00724%Q.
Definition GRID_LON_STEP : Q := 0.0103%Q.

(** The index [i] of a loop as a JavaScript number. *)
Definition num (i : nat) : Q := inject_Z (Z.of_nat i).

(** [x < y] on numbers. *)
Definition Qlt_bool (x y : Q) : bool := negb (Qle_bool y x).

(* ================================================================== *)
(** ** Grid builder: [generateGridCells] *)
(* ================================================================== *)

Module Grid.

Local Open Scope Q_scope.

Section Over.
(** The globals [PORTLAND_BBOX], [GRID_LAT_STEP], [GRID_LON_STEP] that the
    function reads. *)
Variables (bbox : Region) (latStep lonStep : Q).

Definition latRange : Q := north bbox - south bbox.
Definition lonRange : Q := east bbox - west bbox.

(** [Math.ceil(range / step)] as a loop bound: the loop body never runs
    for a bound that is zero or negative. *)
Definition latCells : nat := Z.to_nat (Qceiling (latRange / latStep)).
Definition lonCells : nat := Z.to_nat (Qceiling (lonRange / lonStep)).

(** The body of the inner loop: the object pushed for row [i], column [j]. *)
Definition cellAt (i j : nat) : Cell :=
  let south := south bbox + num i * latStep in
  let north := south + latStep in
  let west := west bbox + num j * lonStep in
  let east := west + lonStep in
  let centerLat := (south + north) / 2 in
  let centerLon := (west + east) / 2 in
  let geometry :=
    [ {| lat := south; lon := west |};
      {| lat := north; lon := west |};
      {| lat := north; lon := east |};
      {| lat := south; lon := east |};
      {| lat := south; lon := west |} ] in
  {| cell_id := (i * lonCells + j)%nat;
     row := i;
     col := j;
     centerLat := centerLat;
     centerLon := centerLon;
     geometry := geometry;
     bounds := {| minLat := south; maxLat := north;
                  minLon := west; maxLon := east |};
     area := GRID_SIZE_KM * GRID_SIZE_KM;
     proximityScore := 0%R;
     nearestBusiness := None;
     minDistance := None;
     businesses := [];
     businessCount := None;
     businessesByCategory := ∅ |}.

(** The two nested [for] loops, rows outside and columns inside. *)
Definition cellsOver : list Cell :=
  flat_map (fun i => map (cellAt i) (seq 0 lonCells)) (seq 0 latCells).
End Over.

End Grid.

Definition generateGridCells : list Cell :=
  Grid.cellsOver PORTLAND_BBOX GRID_LAT_STEP GRID_LON_STEP.

(* ================================================================== *)
(** ** Geometry kernel *)
(* ================================================================== *)

Module Kernel.

(** *** [calculateDistance] (haversine) *)

Section Haversine.
Local Open Scope R_scope.

(** [Math.atan2(y, x)] on finite arguments. *)
Definition atan2 (y x : R) : R :=
  if Rlt_dec 0 x then atan (y / x)
  else if Rlt_dec x 0 then
    (if Rle_dec 0 y then atan (y / x) + PI else atan (y / x) - PI)
  else if Rlt_dec 0 y then PI / 2
  else if Rlt_dec y 0 then - (PI / 2)
  else 0.

Definition calculateDistance (lat1 lon1 lat2 lon2 : R) : R :=
  let earthRadius := 6371 in
  let dLat := (lat2 - lat1) * PI / 180 in
  let dLon := (lon2 - lon1) * PI / 180 in
  let a :=
    sin (dLat / 2) * sin (dLat / 2) +
    cos (lat1 * PI / 180) * cos (lat2 * PI / 180) *
    sin (dLon / 2) * sin (dLon / 2) in
  let c := 2 * atan2 (sqrt a) (sqrt (1 - a)) in
  earthRadius * c.
End Haversine.

(** *** [calculateBounds] *)

(** A number that may be [Infinity] or [-Infinity]. *)
Inductive ExtQ : Type :=
| NegInfinity
| Fin (q : Q)
| PosInfinity.

(** [Math.min(acc, x)] and [Math.max(acc, x)] for a finite [x]. *)
Definition Math_min (acc : ExtQ) (x : Q) : ExtQ :=
  match acc with
  | NegInfinity => NegInfinity
  | Fin q => Fin (Qmin q x)
  | PosInfinity => Fin x
  end.

Definition Math_max (acc : ExtQ) (x : Q) : ExtQ :=
  match acc with
  | NegInfinity => Fin x
  | Fin q => Fin (Qmax q x)
  | PosInfinity => PosInfinity
  end.

(** The truth value of a number in a condition: [0] is falsy. *)
Definition truthy (x : Q) : bool := negb (Qeq_bool x 0).

(** The body of the [forEach]: a point is taken into account only when
    [point.lat && point.lon] is truthy. *)
Definition boundsStep (acc : Bounds ExtQ) (point : Point) : Bounds ExtQ :=
  if truthy (lat point) && truthy (lon point) then
    {| minLat := Math_min (minLat acc) (lat point);
       maxLat := Math_max (maxLat acc) (lat point);
       minLon := Math_min (minLon acc) (lon point);
       maxLon := Math_max (maxLon acc) (lon point) |}
  else acc.

(** [None] is the [null] returned for an empty geometry. *)
Definition calculateBounds (geometry : list Point) : option (Bounds ExtQ) :=
  match geometry with
  | [] => None
  | _ =>
      Some (fold_left boundsStep geometry
              {| minLat := PosInfinity; maxLat := NegInfinity;
                 minLon := PosInfinity; maxLon := NegInfinity |})
  end.

(** *** [calculateArea] *)

(** One iteration of the shoelace loop at index [i], with [j = (i + 1) % n].
    Every point of the model carries both coordinates, so the test against
    [undefined] holds whenever both indices are in range. *)
Definition shoelaceStep (geometry : list Point) (n : nat) (area : Q) (i : nat)
  : Q :=
  let j := ((i + 1) mod n)%nat in
  match geometry !! i, geometry !! j with
  | Some pi, Some pj =>
      let xi := lon pi in
      let yi := lat pi in
      let xj := lon pj in
      let yj := lat pj in
      (area + xi * yj - xj * yi)%Q
  | _, _ => area
  end.

Definition shoelace (geometry : list Point) : Q :=
  let n := length geometry in
  fold_left (shoelaceStep geometry n) (seq 0 n) 0%Q.

Definition latKmPerDegree : R := 111%R.
Definition lonKmPerDegree : R :=
  (111 * cos (Q2R (north PORTLAND_BBOX) * PI / 180))%R.

Definition calculateArea (geometry : list Point) : R :=
  if (length geometry <? 3)%nat then 0.01%R
  else
    let area := shoelace geometry in
    let areaSqDegrees := Qabs (area / 2) in
    let areaSqKm := (Q2R areaSqDegrees * latKmPerDegree * lonKmPerDegree)%R in
    Rmax areaSqKm 0.01%R.

End Kernel.

(* ================================================================== *)
(** ** Boundary reconstructor: [chainWays] *)
(* ================================================================== *)

Module Chain.

(** A way segment as the two callers build it: [startNode] and [endNode]
    are [coords[0]] and [coords[coords.length - 1]]. *)
Record Way : Type :=
  { way_id : Z;
    coords : list Point;
    startNode : option Point;
    endNode : option Point }.

Definition mkWay (id : Z) (coords : list Point) : Way :=
  {| way_id := id; coords := coords;
     startNode := head coords; endNode := last coords |}.

(** A JavaScript call either returns or throws a [TypeError]. *)
Inductive JsResult (A : Type) : Type :=
| Returns (a : A)
| TypeError.
Arguments Returns {A} a.
Arguments TypeError {A}.

Definition tolerance : Q := 0.0001%Q.

(** [coordsMatch]; [None] is an [undefined] argument. *)
Definition coordsMatch (a b : option Point) : bool :=
  match a, b with
  | Some a, Some b =>
      Qlt_bool (Qabs (lat a - lat b)) tolerance &&
      Qlt_bool (Qabs (lon a - lon b)) tolerance
  | _, _ => false
  end.

(** The state of one seed's chain. *)
Record ChainState : Type :=
  { result : list Point; used : gset Z; currentEnd : option Point }.

(** The inner [for ... of] loop: the first way, in input order, that is not
    used yet and whose start or end matches [currentEnd]; the flag tells
    whether it matched by its end and is appended reversed. *)
Fixpoint findNext (currentEnd : option Point) (used : gset Z)
    (ways : list Way) : option (Way * bool) :=
  match ways with
  | [] => None
  | way :: rest =>
      if bool_decide (way_id way ∈ used) then findNext currentEnd used rest
      else if coordsMatch currentEnd (startNode way) then Some (way, false)
      else if coordsMatch currentEnd (endNode way) then Some (way, true)
      else findNext currentEnd used rest
  end.

Definition append (st : ChainState) (way : Way) (reversed : bool)
  : ChainState :=
  if reversed then
    {| result := result st ++ tail (rev (coords way));
       currentEnd := startNode way;
       used := {[ way_id way ]} ∪ used st |}
  else
    {| result := result st ++ tail (coords way);
       currentEnd := endNode way;
       used := {[ way_id way ]} ∪ used st |}.

(** The [while (progress && used.size < waySegments.length)] loop.  Each
    productive iteration adds one id to [used], so [waySegments.length]
    iterations are enough ([extend_fuel] below). *)
Fixpoint extend (fuel : nat) (waySegments : list Way) (st : ChainState)
  : ChainState :=
  match fuel with
  | O => st
  | S fuel' =>
      if (size (used st) <? length waySegments)%nat then
        match findNext (currentEnd st) (used st) waySegments with
        | Some (way, reversed) =>
            extend fuel' waySegments (append st way reversed)
        | None => st
        end
      else st
  end.

(** The chain grown from one seed. *)
Definition chainFrom (waySegments : list Way) (seed : Way) : ChainState :=
  extend (length waySegments) waySegments
    {| result := coords seed;
       used := {[ way_id seed ]};
       currentEnd := last (coords seed) |}.

(** [while (result.length > 1 && coordsMatch(last, secondLast)) result.pop()],
    on the reversed array. *)
Fixpoint popTrailingRev (r : list Point) : list Point :=
  match r with
  | a :: (b :: _) as r' =>
      if coordsMatch (Some a) (Some b) then popTrailingRev r' else r
  | _ => r
  end.

Definition popTrailing (result : list Point) : list Point :=
  rev (popTrailingRev (rev result)).

(** The tail of the branch taken when a seed used every segment and its
    end does not match its start: drop the trailing duplicates, then push
    a copy of the first point unless the last point matches it. *)
Definition closeChain (result : list Point) : list Point :=
  let first := head result in
  let result := popTrailing result in
  if coordsMatch (last result) (head result) then result
  else match first with
       | Some first => result ++ [ {| lat := lat first; lon := lon first |} ]
       | None => result
       end.

(** [cleaned]: the points of [bestChain] that do not match their
    predecessor in [bestChain]. *)
Fixpoint removeConsecutive (prev : option Point) (chain : list Point)
  : list Point :=
  match chain with
  | [] => []
  | p :: rest =>
      match prev with
      | None => p :: removeConsecutive (Some p) rest
      | Some q =>
          if coordsMatch (Some p) (Some q)
          then removeConsecutive (Some p) rest
          else p :: removeConsecutive (Some p) rest
      end
  end.

Definition forceClose (cleaned : list Point) : list Point :=
  match head cleaned, last cleaned with
  | Some first, Some last =>
      if coordsMatch (Some first) (Some last) then cleaned
      else cleaned ++ [ {| lat := lat first; lon := lon first |} ]
  | _, _ => cleaned
  end.

(** The code after the seed loop. *)
Definition useBest (bestChain : option (list Point)) : option (list Point) :=
  match bestChain with
  | Some bestChain =>
      if (3 <=? length bestChain)%nat then
        let cleaned := forceClose (removeConsecutive None bestChain) in
        if (3 <=? length cleaned)%nat then Some cleaned else None
      else None
  | None => None
  end.

(** The [for (startIdx ...)] loop over the seeds that are still to try. *)
Fixpoint trySeeds (waySegments seeds : list Way)
    (bestChain : option (list Point)) (bestUsed : nat)
  : option (list Point) :=
  match seeds with
  | [] => useBest bestChain
  | seed :: rest =>
      let st := chainFrom waySegments seed in
      let track :=
        if (bestUsed <? size (used st))%nat
        then trySeeds waySegments rest (Some (result st)) (size (used st))
        else trySeeds waySegments rest bestChain bestUsed in
      if (size (used st) =? length waySegments)%nat then
        if coordsMatch (currentEnd st) (head (result st))
        then Some (result st)
        else if (0 <? length (result st))%nat
             then Some (closeChain (result st))
             else track
      else track
  end.

Definition chainWays (waySegments : list Way)
  : JsResult (option (list Point)) :=
  match waySegments with
  | [] => Returns None
  | [way] =>
      match head (coords way), last (coords way) with
      | Some first, Some last =>
          if negb (Qeq_bool (lat first) (lat last)) ||
             negb (Qeq_bool (lon first) (lon last))
          then Returns (Some (coords way ++
                                [ {| lat := lat first; lon := lon first |} ]))
          else Returns (Some (coords way))
      | _, _ => TypeError
      end
  | _ => Returns (trySeeds waySegments waySegments None 0)
  end.

End Chain.

(* ================================================================== *)
(** ** Proximity scorer: [calculateProximityScores] *)
(* ================================================================== *)

Module Scorer.

(** [distance < minDistance]. *)
Definition closer (distance : R) (minDistance : Distance) : bool :=
  match minDistance with
  | Infinity => true
  | Finite m => if Rlt_dec distance m then true else false
  end.

(** The containment test of the inner loop, edges included. *)
Definition within (cell : Cell) (business : Business) : bool :=
  Qle_bool (minLat (bounds cell)) (biz_lat business) &&
  Qle_bool (biz_lat business) (maxLat (bounds cell)) &&
  Qle_bool (minLon (bounds cell)) (biz_lon business) &&
  Qle_bool (biz_lon business) (maxLon (bounds cell)).

Definition distanceTo (cell : Cell) (business : Business) : R :=
  Kernel.calculateDistance
    (Q2R (centerLat cell)) (Q2R (centerLon cell))
    (Q2R (biz_lat business)) (Q2R (biz_lon business)).

(** The locals [minDistance] and [nearestBusiness] of the outer callback
    and the array [cell.businesses] that the inner callback pushes to. *)
Record Scan : Type :=
  { scan_minDistance : Distance;
    scan_nearest : option Business;
    scan_businesses : list Business }.

(** The body of [allBusinesses.forEach]. *)
Definition visit (cell : Cell) (s : Scan) (business : Business) : Scan :=
  let distance := distanceTo cell business in
  let hit := closer distance (scan_minDistance s) in
  {| scan_minDistance := if hit then Finite distance else scan_minDistance s;
     scan_nearest := if hit then Some business else scan_nearest s;
     scan_businesses :=
       if within cell business then scan_businesses s ++ [business]
       else scan_businesses s |}.

(** [b.category || 'unknown']: an absent or empty category is falsy. *)
Definition categoryOf (b : Business) : string :=
  match biz_category b with
  | Some c => if String.eqb c "" then "unknown" else c
  | None => "unknown"
  end.

(** The body of [cell.businesses.forEach]: create the bucket when the key
    is absent, then push. *)
Definition bucket (byCategory : gmap string (list Business)) (b : Business)
  : gmap string (list Business) :=
  let cat := categoryOf b in
  <[ cat := default [] (byCategory !! cat) ++ [b] ]> byCategory.

(** [100 * Math.exp(-minDistance / 0.5)], and [0] when no business was
    seen. *)
Definition scoreOf (minDistance : Distance) : R :=
  match minDistance with
  | Finite d => (100 * exp (- d / 0.5))%R
  | Infinity => 0%R
  end.

(** The body of [gridCells.forEach]: the cell after the pass.  The scan
    starts from the array [cell.businesses] as it is on entry. *)
Definition scoreCell (allBusinesses : list Business) (cell : Cell) : Cell :=
  let s :=
    fold_left (visit cell) allBusinesses
      {| scan_minDistance := Infinity;
         scan_nearest := None;
         scan_businesses := businesses cell |} in
  {| cell_id := cell_id cell;
     row := row cell;
     col := col cell;
     centerLat := centerLat cell;
     centerLon := centerLon cell;
     geometry := geometry cell;
     bounds := bounds cell;
     area := area cell;
     proximityScore := scoreOf (scan_minDistance s);
     nearestBusiness := scan_nearest s;
     minDistance := Some (scan_minDistance s);
     businesses := scan_businesses s;
     businessCount := Some (length (scan_businesses s));
     businessesByCategory := fold_left bucket (scan_businesses s) ∅ |}.

(** The comparator [(a, b) => b.proximityScore - a.proximityScore]. *)
Definition compareFn (a b : Cell) : R :=
  (proximityScore b - proximityScore a)%R.

(** [Array.prototype.sort] is stable, and for a comparator that is a total
    preorder the stable order is unique; it is computed here by insertion:
    [x], which precedes every element of [l] in the input, goes before the
    first [y] with [comparefn(x, y) <= 0]. *)
Section Sort.
Context {A : Type} (comparefn : A -> A -> R).

Fixpoint insertSorted (x : A) (l : list A) : list A :=
  match l with
  | [] => [x]
  | y :: l' =>
      if Rle_dec (comparefn x y) 0 then x :: y :: l'
      else y :: insertSorted x l'
  end.

Definition sort (l : list A) : list A := fold_right insertSorted [] l.
End Sort.

Definition calculateProximityScores (st : AppState) : AppState :=
  {| gridCells :=
       sort compareFn (map (scoreCell (allBusinesses st)) (gridCells st));
     allBusinesses := allBusinesses st |}.

(** The aggregate computation: [loadData] assigns
    [gridCells = generateGridCells()], then [renderMap] runs one scoring
    pass. *)
Definition aggregate (st : AppState) : AppState :=
  calculateProximityScores
    {| gridCells := generateGridCells; allBusinesses := allBusinesses st |}.

End Scorer.

(* ================================================================== *)
(** ** Vocabulary of the properties *)
(* ================================================================== *)

Module Props.

Local Open Scope Q_scope.

(** A point lies in a bounding box, edges included. *)
Definition inBounds (b : Bounds Q) (p : Point) : Prop :=
  (minLat b <= lat p /\ lat p <= maxLat b) /\
  (minLon b <= lon p /\ lon p <= maxLon b).


(** A point lies in the configured region. *)
Definition inRegion (r : Region) (p : Point) : Prop :=
  (south r <= lat p /\ lat p <= north r) /\
  (west r <= lon p /\ lon p <= east r).

(** The rectangle of [rows] by [cols] whole steps anchored at the
    south-west corner of the region. *)
Definition inSteps (r : Region) (latStep lonStep : Q) (rows cols : nat)
    (p : Point) : Prop :=
  (south r <= lat p /\ lat p <= south r + num rows * latStep) /\
  (west r <= lon p /\ lon p <= west r + num cols * lonStep).

(** The loop bounds of [generateGridCells]. *)
Definition numRows : nat := Grid.latCells PORTLAND_BBOX GRID_LAT_STEP.
Definition numCols : nat := Grid.lonCells PORTLAND_BBOX GRID_LON_STEP.






(** The elements whose key is exactly [s]. *)
Definition keyIs {A : Type} (key : A -> R) (s : R) (a : A) : bool :=
  if Req_dec_T (key a) s then true else false.

(** A comparator that orders by descending key, as the one of the scoring
    pass does with [proximityScore]. *)
Definition byKeyDesc {A : Type} (key : A -> R) (a b : A) : R :=
  (key b - key a)%R.

(** A business in the south-west corner cell of the grid, and the state of
    the application once the grid has been generated for it. *)
Definition cornerCafe : Business :=
  {| biz_id := 1; biz_name := "Corner Cafe";
     biz_lat := 45.4336; biz_lon := -122.835;
     biz_category := Some "cafe"%string |}.

Definition loaded (businesses : list Business) : AppState :=
  {| gridCells := generateGridCells; allBusinesses := businesses |}.

(** The number of segments a seed's chain used, and whether it used every
    segment. *)
Definition usedCount (waySegments : list Chain.Way) (seed : Chain.Way) : nat :=
  size (Chain.used (Chain.chainFrom waySegments seed)).

Definition usesAll (waySegments : list Chain.Way) (seed : Chain.Way) : bool :=
  (usedCount waySegments seed =? length waySegments)%nat.

(** What the loop returns for a seed that used every segment. *)
Definition closedChain (st : Chain.ChainState) : list Point :=
  if Chain.coordsMatch (Chain.currentEnd st) (head (Chain.result st))
  then Chain.result st
  else Chain.closeChain (Chain.result st).

(** Closing a chain as the specification words it: append the starting
    point when the final endpoint does not coincide with it within the
    tolerance, and change nothing else. *)
Definition closeAsStated (chain : list Point) : list Point :=
  if Chain.coordsMatch (last chain) (head chain) then chain
  else match head chain with
       | Some start => chain ++ [start]
       | None => chain
       end.

(** The number of distinct points of a ring. *)
Definition samePoint (p q : Point) : bool :=
  Qeq_bool (lat p) (lat q) && Qeq_bool (lon p) (lon q).

Fixpoint distinctPoints (ring : list Point) : nat :=
  match ring with
  | [] => 0
  | p :: rest =>
      if existsb (samePoint p) rest then distinctPoints rest
      else S (distinctPoints rest)
  end.

(** Sample points: [ptB'] lies within the tolerance of [ptB]; all other
    pairs are apart. *)
Definition ptA : Point := {| lat := 45.50; lon := -122.60 |}.
Definition ptB : Point := {| lat := 45.51; lon := -122.60 |}.
Definition ptB' : Point := {| lat := 45.51005; lon := -122.60 |}.
Definition ptC : Point := {| lat := 45.51; lon := -122.61 |}.
Definition ptD : Point := {| lat := 45.52; lon := -122.63 |}.
Definition ptE : Point := {| lat := 45.53; lon := -122.63 |}.

(** Two ways that do not connect; the first ends in two points closer than
    the tolerance. *)
Definition looseWays : list Chain.Way :=
  [ Chain.mkWay 101 [ptA; ptB; ptB']; Chain.mkWay 102 [ptD; ptE] ].

(** Two ways that connect at [ptC]; the second ends in two points closer
    than the tolerance. *)
Definition joinedWays : list Chain.Way :=
  [ Chain.mkWay 201 [ptA; ptC]; Chain.mkWay 202 [ptC; ptB; ptB'] ].

End Props.

Import Kernel Chain Scorer Props.

(* ================================================================== *)
(** ** Geometry kernel: [isPointInPolygon] *)
(* ================================================================== *)

Module Polygon.

Local Open Scope Q_scope.

(** The test [intersect] of one loop iteration, for the vertices
    [geometry[i]] and [geometry[j]].  The second operand of [&&] is only
    evaluated when the latitudes differ. *)
Definition intersect (ptLat ptLon : Q) (pi pj : Point) : bool :=
  let xi := lon pi in
  let yi := lat pi in
  let xj := lon pj in
  let yj := lat pj in
  negb (Bool.eqb (Qlt_bool ptLat yi) (Qlt_bool ptLat yj)) &&
  Qlt_bool ptLon ((xj - xi) * (ptLat - yi) / (yj - yi) + xi).

(** The loop [for (i = 0, j = n - 1; i < n; j = i++)]: [pj] is the vertex
    at the previous index and [todo] the vertices from index [i] on. *)
Fixpoint rayCast (ptLat ptLon : Q) (pj : Point) (todo : list Point)
    (inside : bool) : bool :=
  match todo with
  | [] => inside
  | pi :: rest =>
      rayCast ptLat ptLon pi rest
        (if intersect ptLat ptLon pi pj then negb inside else inside)
  end.

Definition isPointInPolygon (ptLat ptLon : Q) (geometry : list Point) : bool :=
  match last geometry with
  | None => false
  | Some pj => rayCast ptLat ptLon pj geometry false
  end.

End Polygon.

(* ================================================================== *)
(** ** Fallback areas: [createGridNeighborhoods] *)
(* ================================================================== *)

Module Fallback.

Local Open Scope Q_scope.

(** A neighborhood object.  [bounds] is a literal object here and the
    result of [calculateBounds] in the loaders. *)
Record Neighborhood : Type :=
  { nb_id : Z;
    nb_name : string;
    nb_geometry : list Point;
    nb_bounds : option (Bounds Kernel.ExtQ);
    nb_area : R;
    restaurants : list Business }.

Definition gridSize : nat := 4.

Definition latStep : Q :=
  (north PORTLAND_BBOX - south PORTLAND_BBOX) / num gridSize.
Definition lonStep : Q :=
  (east PORTLAND_BBOX - west PORTLAND_BBOX) / num gridSize.

(** The object pushed for row [i], column [j]. *)
Definition neighborhoodAt (i j : nat) : Neighborhood :=
  let south := south PORTLAND_BBOX + num i * latStep in
  let north := south + latStep in
  let west := west PORTLAND_BBOX + num j * lonStep in
  let east := west + lonStep in
  let geometry :=
    [ {| lat := south; lon := west |};
      {| lat := north; lon := west |};
      {| lat := north; lon := east |};
      {| lat := south; lon := east |};
      {| lat := south; lon := west |} ] in
  {| nb_id := - Z.of_nat (i * gridSize + j + 1);
     nb_name := "Grid " +:+ pretty (i + 1)%nat +:+ "-" +:+ pretty (j + 1)%nat;
     nb_geometry := geometry;
     nb_bounds := Some {| minLat := Kernel.Fin south;
                          maxLat := Kernel.Fin north;
                          minLon := Kernel.Fin west;
                          maxLon := Kernel.Fin east |};
     nb_area := Kernel.calculateArea geometry;
     restaurants := [] |}.

Definition createGridNeighborhoods : list Neighborhood :=
  flat_map (fun i => map (neighborhoodAt i) (seq 0 gridSize)) (seq 0 gridSize).

End Fallback.

(* ================================================================== *)
(** ** Presentation: [renderMap], [renderGridCellList], [highlightGridCell] *)
(* ================================================================== *)

Module Render.

Local Open Scope R_scope.

(** [Math.floor]. *)
Definition floor (x : R) : Z := (up x - 1)%Z.

(** [Math.max(...xs)]; [None] is the [-Infinity] of an empty argument
    list. *)
Definition Math_max_of (xs : list R) : option R :=
  fold_left (fun acc x =>
               match acc with
               | None => Some x
               | Some m => Some (Rmax m x)
               end) xs None.

(** [maxProximity] of [renderMap]. *)
Definition maxProximity (cells : list Cell) : option R :=
  Math_max_of (map proximityScore cells).

(** A fill colour: one of the literal colour strings, or the template
    string [rgb(r, g, b)]. *)
Inductive FillColor : Type :=
| Literal (s : string)
| Rgb (r g b : Z).

Record Style : Type :=
  { fillColor : FillColor;
    weight : Z;
    opacity : R;
    fillOpacity : R;
    color : string }.

(** [intensity] of [gridCellStyle]. *)
Definition intensity (maxProximity : option R) (cell : Cell) : R :=
  match maxProximity with
  | Some m => if Rlt_dec 0 m then proximityScore cell / m else 0
  | None => 0
  end.

(** The closure [gridCellStyle] of [renderMap], for a cell that is not
    null. *)
Definition gridCellStyle (maxProximity : option R) (cell : Cell) : Style :=
  if Req_dec_T (proximityScore cell) 0 then
    {| fillColor := Literal "#f0f0f0"; weight := 1; opacity := 0.2;
       fillOpacity := 0.1; color := "#ccc" |}
  else
    let intensity := intensity maxProximity cell in
    let r := Z.min 255 (floor (intensity * 255)) in
    let g := Z.min 255 (floor ((1 - intensity) * 200)) in
    let b := Z.min 255 (floor ((1 - intensity) * 100)) in
    let minOpacity := 0.2 in
    let maxOpacity := 0.8 in
    let minFillOpacity := 0.15 in
    let maxFillOpacity := 0.7 in
    let opacity := minOpacity + (maxOpacity - minOpacity) * intensity in
    let fillOpacity :=
      minFillOpacity + (maxFillOpacity - minFillOpacity) * intensity in
    {| fillColor := Rgb r g b; weight := 1; opacity := opacity;
       fillOpacity := fillOpacity; color := "#666" |}.

(** [topCells] of [renderGridCellList]: the cells with a positive score,
    cut to the first 50. *)
Definition topCells (cells : list Cell) : list Cell :=
  take 50 (List.filter
             (fun cell => if Rlt_dec 0 (proximityScore cell) then true
                          else false) cells).

(** [gridCells.find(c => c.id === cellId)] of [highlightGridCell]. *)
Definition findCell (cells : list Cell) (cellId : nat) : option Cell :=
  List.find (fun c => (cell_id c =? cellId)%nat) cells.

End Render.

(* ================================================================== *)
(** ** Neighborhood loaders: relations to rings *)
(* ================================================================== *)

Module Relations.

Import Chain Fallback.

(** A relation member [{ type, ref, role }]. *)
Record Member : Type :=
  { m_type : string; m_ref : Z; m_role : option string }.

(** A relation element; [tags] and [members] may be absent. *)
Record Relation : Type :=
  { rel_id : Z;
    rel_tags : option (gmap string string);
    rel_members : option (list Member) }.

(** The values of [waysMap] and [nodesMap]. *)
Record OsmWay : Type := { way_nodes : option (list Z) }.
Record OsmNode : Type := { node_lat : option Q; node_lon : option Q }.

(** [m.type === 'way' && (!m.role || m.role === 'outer')]. *)
Definition isOuterWay (m : Member) : bool :=
  String.eqb (m_type m) "way" &&
  match m_role m with
  | None => true
  | Some role => String.eqb role "" || String.eqb role "outer"
  end.

(** The coordinates of a node id, or [null]. *)
Definition nodeCoords (nodesMap : gmap Z OsmNode) (nodeId : Z)
  : option Point :=
  match nodesMap !! nodeId with
  | Some node =>
      match node_lat node, node_lon node with
      | Some la, Some lo => Some {| lat := la; lon := lo |}
      | _, _ => None
      end
  | None => None
  end.

(** The callback of [.map] in [buildGeometryFromRelationData]. *)
Definition wayOfData (waysMap : gmap Z OsmWay) (nodesMap : gmap Z OsmNode)
    (m : Member) : option Way :=
  match waysMap !! m_ref m with
  | None => None
  | Some way =>
      match way_nodes way with
      | None => None
      | Some [] => None
      | Some nodes =>
          let coords := omap (nodeCoords nodesMap) nodes in
          match coords with
          | [] => None
          | _ => Some {| way_id := m_ref m; coords := coords;
                         startNode := head coords; endNode := last coords |}
          end
      end
  end.

(** The callback of [.map] in [buildGeometryFromRelationWithWays]. *)
Definition wayOfCoords (wayNodesMap : gmap Z (list Point)) (m : Member)
  : option Way :=
  match wayNodesMap !! m_ref m with
  | None => None
  | Some [] => None
  | Some wayCoords =>
      Some {| way_id := m_ref m; coords := wayCoords;
              startNode := head wayCoords; endNode := last wayCoords |}
  end.

(** [dist], the Euclidean distance in degrees between two points. *)
Definition dist (first last : Point) : R :=
  sqrt ((Q2R (lat first) - Q2R (lat last)) ^ 2 +
        (Q2R (lon first) - Q2R (lon last)) ^ 2)%R.

(** The end of both builders: reject fewer than 3 points, then push a copy
    of the first point when the ends are more than 0.0001 apart. *)
Definition ensureClosed (chainedCoords : option (list Point))
  : option (list Point) :=
  match chainedCoords with
  | None => None
  | Some chained =>
      if (length chained <? 3)%nat then None
      else
        match head chained, last chained with
        | Some first, Some last =>
            if Rlt_dec 0.0001 (dist first last)
            then Some (chained ++ [ {| lat := lat first; lon := lon first |} ])
            else Some chained
        | _, _ => Some chained
        end
  end.

(** What both builders do with the outer ways they collected. *)
Definition chainOuterWays (outerWayMembers : list Way)
  : JsResult (option (list Point)) :=
  match outerWayMembers with
  | [] => Returns None
  | _ =>
      match chainWays outerWayMembers with
      | TypeError => TypeError
      | Returns chainedCoords => Returns (ensureClosed chainedCoords)
      end
  end.

Definition buildGeometryFromRelationData (relation : Relation)
    (waysMap : gmap Z OsmWay) (nodesMap : gmap Z OsmNode)
  : JsResult (option (list Point)) :=
  match rel_members relation with
  | None | Some [] => Returns None
  | Some members =>
      chainOuterWays
        (omap (wayOfData waysMap nodesMap) (List.filter isOuterWay members))
  end.

Definition buildGeometryFromRelationWithWays (relation : Relation)
    (wayNodesMap : gmap Z (list Point))
  : JsResult (option (list Point)) :=
  match rel_members relation with
  | None | Some [] => Returns None
  | Some members =>
      chainOuterWays
        (omap (wayOfCoords wayNodesMap) (List.filter isOuterWay members))
  end.

(** [tags.x === v] on a tag table that may be absent ([rel.tags || {}]). *)
Definition tagIs (tags : option (gmap string string)) (key value : string)
  : bool :=
  match tags with
  | Some t => match t !! key with
              | Some v => String.eqb v value
              | None => false
              end
  | None => false
  end.

(** The relation filter of [loadNeighborhoods] and
    [loadNeighborhoodsByBBox]; [loadNeighborhoodsWithGeom] has the same
    without the last alternative. *)
Definition isNeighborhoodRelation (withQuarter : bool) (rel : Relation)
  : bool :=
  (tagIs (rel_tags rel) "boundary" "administrative" &&
   tagIs (rel_tags rel) "admin_level" "10") ||
  tagIs (rel_tags rel) "place" "neighbourhood" ||
  tagIs (rel_tags rel) "place" "suburb" ||
  (withQuarter && tagIs (rel_tags rel) "place" "quarter").

(** A tag value read as a condition: absent and empty are falsy. *)
Definition tagValue (tags : option (gmap string string)) (key : string)
  : option string :=
  match tags with
  | Some t => match t !! key with
              | Some "" => None
              | other => other
              end
  | None => None
  end.

(** [rel.tags?.name || rel.tags?.['name:en'] || 'Unnamed Neighborhood']. *)
Definition relationName (rel : Relation) : string :=
  match tagValue (rel_tags rel) "name" with
  | Some n => n
  | None => default "Unnamed Neighborhood"
              (tagValue (rel_tags rel) "name:en")
  end.

(** The callback of [.map] in the three relation loaders, given the
    geometry the builder returned. *)
Definition neighborhoodOf (rel : Relation) (geometry : option (list Point))
  : option Neighborhood :=
  match geometry with
  | None => None
  | Some geometry =>
      if (length geometry <? 3)%nat then None
      else Some {| nb_id := rel_id rel;
                   nb_name := relationName rel;
                   nb_geometry := geometry;
                   nb_bounds := Kernel.calculateBounds geometry;
                   nb_area := Kernel.calculateArea geometry;
                   restaurants := [] |}
  end.

(** [n !== null && n.area > 0.001]. *)
Definition keepNeighborhood (n : option Neighborhood) : bool :=
  match n with
  | None => false
  | Some n => if Rlt_dec 0.001 (nb_area n) then true else false
  end.

(** [.map(rel => ...)] with a builder that may throw: the first throw
    ends the whole expression. *)
Fixpoint mapRelations (build : Relation -> JsResult (option (list Point)))
    (rels : list Relation) : JsResult (list (option Neighborhood)) :=
  match rels with
  | [] => Returns []
  | rel :: rest =>
      match build rel with
      | TypeError => TypeError
      | Returns geometry =>
          match mapRelations build rest with
          | TypeError => TypeError
          | Returns ns => Returns (neighborhoodOf rel geometry :: ns)
          end
      end
  end.

(** The expression [Array.from(relations.values()).filter(...).map(...)
    .filter(...)] of the relation loaders, from the relations in the order
    of the [Map]. *)
Definition neighborhoodsOfRelations (withQuarter : bool)
    (build : Relation -> JsResult (option (list Point)))
    (relations : list Relation) : JsResult (list Neighborhood) :=
  match mapRelations build
          (List.filter (isNeighborhoodRelation withQuarter) relations) with
  | TypeError => TypeError
  | Returns ns => Returns (omap (fun n => n) (List.filter keepNeighborhood ns))
  end.

(** The fallback chain of [loadNeighborhoods].  The arguments are what
    each source gives when it is asked: [primary] is the body of the [try]
    up to the first list of neighborhoods, the others are the calls in the
    order of the source; a rejected promise is [TypeError]'s place here,
    called [Throws]. *)
Inductive Outcome (A : Type) : Type :=
| Gives (a : A)
| Throws.
Arguments Gives {A} a.
Arguments Throws {A}.

Definition recover (altGeom altPortland : Outcome (list Neighborhood))
  : list Neighborhood :=
  match altGeom with
  | Gives (n :: ns) => n :: ns
  | _ =>
      match altPortland with
      | Gives (n :: ns) => n :: ns
      | _ => createGridNeighborhoods
      end
  end.

Definition loadNeighborhoods
    (primary byBBox withGeom portland geoJson altGeom altPortland
       : Outcome (list Neighborhood)) : list Neighborhood :=
  let orElse (current : list Neighborhood)
             (next : Outcome (list Neighborhood))
             (k : list Neighborhood -> list Neighborhood) :=
    match current with
    | [] => match next with
            | Gives ns => k ns
            | Throws => recover altGeom altPortland
            end
    | _ => k current
    end in
  match primary with
  | Throws => recover altGeom altPortland
  | Gives n0 =>
      orElse n0 byBBox (fun n1 =>
      orElse n1 withGeom (fun n2 =>
      orElse n2 portland (fun n3 =>
      orElse n3 geoJson (fun n4 =>
      match n4 with
      | [] => createGridNeighborhoods
      | _ => n4
      end))))
  end.

End Relations.

(* ================================================================== *)
(** ** Business loaders: [isExcludedChain], [loadBusinessesByCategory],
       [loadAllBusinesses] *)
(* ================================================================== *)

Module Loader.

Import Relations.

(** [EXCLUDED_CHAINS] of [app.js]. *)
Definition EXCLUDED_CHAINS : list string :=
  [ "subway"; "starbucks"; "mcdonald"; "dunkin"; "taco bell"; "domino";
    "burger king"; "pizza hut"; "wendy"; "dairy queen"; "little caesar";
    "kfc"; "sonic"; "chipotle"; "arby"; "papa john"; "popeyes";
    "chick-fil-a"; "chick fil a"; "panera"; "jack in the box" ]%string.

(** [EXCLUDED_CHAINS] and [automotiveKeywords] of [fetch-data.js]. *)
Definition FETCH_EXCLUDED_CHAINS : list string :=
  [ "subway"; "starbucks"; "mcdonald"; "dunkin"; "taco bell"; "domino";
    "burger king"; "pizza hut"; "wendy"; "dairy queen"; "little caesar";
    "kfc"; "sonic"; "chipotle"; "arby"; "papa john"; "popeyes";
    "chick-fil-a"; "chick fil a"; "panera"; "jack in the box";
    "autozone"; "bi-mart"; "bi mart"; "target"; "michael's"; "michaels";
    "ross" ]%string.

Definition automotiveKeywords : list string :=
  [ "auto parts"; "truck parts"; "automotive"; "car parts" ]%string.

(** [haystack.includes(needle)]. *)
Definition includes (haystack needle : string) : bool :=
  match String.index 0 needle haystack with
  | Some _ => true
  | None => false
  end.

(** An element of an Overpass answer. *)
Record Element : Type :=
  { el_type : string;
    el_id : Z;
    el_lat : option Q;
    el_lon : option Q;
    el_center : option Point;
    el_tags : option (gmap string string) }.

(** The object stored in [businessesMap]. *)
Record Entry : Type :=
  { en_id : Z;
    en_name : string;
    en_lat : Q;
    en_lon : Q;
    en_tags : gmap string string;
    en_type : string }.

(** [{ ...b, category: categoryId }]. *)
Record Categorized : Type := { entry : Entry; category : string }.

Section Builtins.
(** The built-ins [String.prototype.toLowerCase] and
    [Number.prototype.toFixed] with argument 6. *)
Variable toLowerCase : string -> string.
Variable toFixed6 : Q -> string.

(** [isExcludedChain] of [app.js], applied to an object whose [name] is the
    argument ([None]: no such property). *)
Definition isExcludedChain (name : option string) : bool :=
  let name := toLowerCase (default "" name) in
  existsb (fun chain => includes name chain) EXCLUDED_CHAINS.

(** [isExcludedChain] of [fetch-data.js]. *)
Definition fetchIsExcludedChain (name : option string) : bool :=
  let name := toLowerCase (default "" name) in
  if existsb (fun chain => includes name chain) FETCH_EXCLUDED_CHAINS
  then true
  else if existsb (fun keyword => includes name keyword) automotiveKeywords
       then true
       else false.

(** A coordinate read as a condition: absent and [0] are falsy. *)
Definition truthyCoord (x : option Q) : bool :=
  match x with
  | Some q => negb (Qeq_bool q 0)
  | None => false
  end.

(** The body of [data.elements.forEach] up to the key: the key and the
    object of an element that is taken, [None] for an element that is
    skipped. *)
Definition candidate (filterFn : gmap string string -> bool) (el : Element)
  : option (string * Entry) :=
  let tags := default ∅ (el_tags el) in
  if negb (filterFn tags) then None
  else
    let coordinates :=
      if String.eqb (el_type el) "node" &&
         truthyCoord (el_lat el) && truthyCoord (el_lon el)
      then match el_lat el, el_lon el with
           | Some la, Some lo => Some (la, lo)
           | _, _ => None
           end
      else if String.eqb (el_type el) "way"
           then match el_center el with
                | Some center => Some (lat center, lon center)
                | None => None
                end
           else None in
    match coordinates with
    | None => None
    | Some (la, lo) =>
        let name :=
          match tagValue (Some tags) "name" with
          | Some n => n
          | None => default "Unnamed Business"
                      (tagValue (Some tags) "name:en")
          end in
        if isExcludedChain (Some name) then None
        else
          let key := toFixed6 la +:+ "," +:+ toFixed6 lo in
          Some (key, {| en_id := el_id el; en_name := name;
                        en_lat := la; en_lon := lo;
                        en_tags := tags; en_type := "business" |})
    end.

(** [businessesMap.has(key)] on the map kept in insertion order. *)
Definition hasKey (businessesMap : list (string * Entry)) (key : string)
  : bool :=
  existsb (fun kv => String.eqb (fst kv) key) businessesMap.

Definition visitElement (filterFn : gmap string string -> bool)
    (businessesMap : list (string * Entry)) (el : Element)
  : list (string * Entry) :=
  match candidate filterFn el with
  | Some (key, e) =>
      if hasKey businessesMap key then businessesMap
      else businessesMap ++ [(key, e)]
  | None => businessesMap
  end.

(** [loadBusinessesByCategory], given what the request gives: the elements
    of the answer, or a failure, which the [catch] turns into []. *)
Definition loadBusinessesByCategory (filterFn : gmap string string -> bool)
    (data : Outcome (list Element)) : list Entry :=
  match data with
  | Gives elements =>
      map snd (fold_left (visitElement filterFn) elements [])
  | Throws => []
  end.

(** [loadAllBusinesses], given for every category its id, its filter and
    what its request gives. *)
Definition loadAllBusinesses
    (categories : list (string * (gmap string string -> bool)
                        * Outcome (list Element))) : list Categorized :=
  let results :=
    map (fun '(categoryId, filterFn, data) =>
           map (fun b => {| entry := b; category := categoryId |})
               (loadBusinessesByCategory filterFn data)) categories in
  let allBusinesses := concat results in
  List.filter (fun b => negb (isExcludedChain (Some (en_name (entry b)))))
              allBusinesses.
End Builtins.

End Loader.

(* ================================================================== *)
(** ** Vocabulary of the further properties *)
(* ================================================================== *)

Module MoreProps.

Local Open Scope Q_scope.




(** The rectangle ring through the four corners of a box, as
    [generateGridCells] and [createGridNeighborhoods] write it. *)
Definition rectangle (s n w e : Q) : list Point :=
  [ {| lat := s; lon := w |}; {| lat := n; lon := w |};
    {| lat := n; lon := e |}; {| lat := s; lon := e |};
    {| lat := s; lon := w |} ].


(** The box of a neighborhood with finite bounds contains the point. *)
Definition inExtBounds (b : option (Bounds Kernel.ExtQ)) (p : Point) : Prop :=
  match b with
  | Some {| minLat := Kernel.Fin s; maxLat := Kernel.Fin n;
            minLon := Kernel.Fin w; maxLon := Kernel.Fin e |} =>
      (s <= lat p /\ lat p <= n) /\ (w <= lon p /\ lon p <= e)
  | _ => False
  end.

(** The point is a coordinate of one of the segments. *)
Definition fromSegments (waySegments : list Chain.Way) (p : Point) : Prop :=
  exists way, In way waySegments /\ In p (Chain.coords way).

(** A segment as the callers build it, with at least two coordinates. *)
Definition wellFormedWay (way : Chain.Way) : Prop :=
  (2 <= length (Chain.coords way))%nat /\
  Chain.startNode way = head (Chain.coords way) /\
  Chain.endNode way = last (Chain.coords way).

(** A source that gave no neighborhood or threw. *)
Definition emptyOrFails
    (source : Relations.Outcome (list Fallback.Neighborhood))
  : Prop :=
  source = Relations.Gives [] \/ source = Relations.Throws.

(** The key under which [loadBusinessesByCategory] files an entry. *)
Definition keyOf (toFixed6 : Q -> string) (e : Loader.Entry) : string :=
  toFixed6 (Loader.en_lat e) +:+ "," +:+ toFixed6 (Loader.en_lon e).

End MoreProps.

Import Polygon Fallback Render Relations Loader MoreProps.

(* ================================================================== *)
(** * Properties *)
(* ================================================================== *)

(** ** Grid builder *)

Section GridFacts.
Local Open Scope Q_scope.

Lemma num_S (i : nat) : num (S i) == num i + 1.
Proof.
  unfold num. rewrite Nat2Z.inj_succ, <- Z.add_1_r, inject_Z_plus.
  reflexivity.
Qed.

Lemma num_nonneg (i : nat) : 0 <= num i.
Proof.
  unfold num. change 0 with (inject_Z 0). rewrite <- Zle_Qle. lia.
Qed.

Lemma num_le (i j : nat) : (i <= j)%nat -> num i <= num j.
Proof. intros H. unfold num. rewrite <- Zle_Qle. lia. Qed.

(** Row-major layout of two nested loops with bounds [n] and [m]. *)
Lemma lookup_nested {A : Type} (f : nat -> nat -> A) (m n s r c : nat) :
  (r < n)%nat -> (c < m)%nat ->
  flat_map (fun i => map (f i) (seq 0 m)) (seq s n) !! (r * m + c)%nat
  = Some (f (s + r)%nat c).
Proof.
  revert s r. induction n as [|n IH]; intros s r Hr Hc; [lia|].
  cbn [seq flat_map]. destruct r as [|r].
  - rewrite lookup_app_l by (rewrite length_map, length_seq; lia).
    cbn [Nat.mul Nat.add]. rewrite list_lookup_fmap.
    rewrite lookup_seq_lt by lia. cbn. do 2 f_equal. lia.
  - rewrite lookup_app_r by (rewrite length_map, length_seq; lia).
    rewrite length_map, length_seq.
    replace (S r * m + c - m)%nat with (r * m + c)%nat by lia.
    rewrite IH by lia. do 2 f_equal. lia.
Qed.

Lemma length_nested {A : Type} (f : nat -> nat -> A) (m n s : nat) :
  length (flat_map (fun i => map (f i) (seq 0 m)) (seq s n)) = (n * m)%nat.
Proof.
  revert s. induction n as [|n IH]; intros s; [reflexivity|].
  cbn [seq flat_map]. rewrite length_app, length_map, length_seq, IH. lia.
Qed.

Lemma in_nested {A : Type} (f : nat -> nat -> A) (m n : nat) (x : A) :
  In x (flat_map (fun i => map (f i) (seq 0 m)) (seq 0 n)) <->
  exists r c, (r < n)%nat /\ (c < m)%nat /\ x = f r c.
Proof.
  rewrite in_flat_map. split.
  - intros (r & Hr & Hx). apply in_map_iff in Hx as (c & <- & Hc).
    apply in_seq in Hr, Hc. exists r, c. repeat split; lia.
  - intros (r & c & Hr & Hc & ->). exists r. split.
    + apply in_seq. lia.
    + apply in_map_iff. exists c. split; [reflexivity|apply in_seq; lia].
Qed.

(** One axis of the tiling: [n] consecutive strips of width [step]
    starting at [o] cover [[o, o + n * step]]. *)
Lemma strip_cover (o step x : Q) (n : nat) :
  (0 < n)%nat -> o <= x -> x <= o + num n * step ->
  exists i, (i < n)%nat /\
            o + num i * step <= x /\ x <= o + num i * step + step.
Proof.
  induction n as [|n IH]; intros Hn Hlo Hhi; [lia|].
  destruct n as [|n].
  - exists 0%nat. split; [lia|].
    change (num 0) with 0. change (num 1) with 1 in Hhi. lra.
  - destruct (Qlt_le_dec (o + num (S n) * step) x) as [Hgt|Hle].
    + exists (S n). split; [lia|]. rewrite (num_S (S n)) in Hhi. lra.
    + destruct IH as (i & Hi & H1 & H2); [lia|assumption|assumption|].
      exists i. split; [lia|]. split; assumption.
Qed.

Lemma strip_inside (o step x : Q) (n i : nat) :
  0 < step -> (i < n)%nat ->
  o + num i * step <= x -> x <= o + num i * step + step ->
  o <= x /\ x <= o + num n * step.
Proof.
  intros Hs Hi H1 H2.
  pose proof (num_nonneg i) as H0.
  assert (Hle : num (S i) <= num n) by (apply num_le; lia).
  rewrite num_S in Hle. split; nra.
Qed.

End GridFacts.

Section GridClaims.
Local Open Scope Q_scope.

Lemma numRows_eq : numRows = 31%nat.
Proof. vm_compute. reflexivity. Qed.

Lemma numCols_eq : numCols = 36%nat.
Proof. vm_compute. reflexivity. Qed.

Lemma generateGridCells_lookup (r c : nat) :
  (r < numRows)%nat -> (c < numCols)%nat ->
  generateGridCells !! (r * numCols + c)%nat
  = Some (Grid.cellAt PORTLAND_BBOX GRID_LAT_STEP GRID_LON_STEP r c).
Proof.
  intros Hr Hc. unfold generateGridCells, Grid.cellsOver.
  apply (lookup_nested
           (Grid.cellAt PORTLAND_BBOX GRID_LAT_STEP GRID_LON_STEP)
           numCols numRows 0 r c Hr Hc).
Qed.

Lemma generateGridCells_in (cell : Cell) :
  In cell generateGridCells <->
  exists r c, (r < numRows)%nat /\ (c < numCols)%nat /\
              cell = Grid.cellAt PORTLAND_BBOX GRID_LAT_STEP GRID_LON_STEP r c.
Proof.
  unfold generateGridCells, Grid.cellsOver.
  apply (in_nested (Grid.cellAt PORTLAND_BBOX GRID_LAT_STEP GRID_LON_STEP)).
Qed.

(** C5.  The grid has [ceil(latRange / latStep) * ceil(lonRange / lonStep)]
    cells (31 rows of 36 columns) in row-major order: the cell at index
    [r * numCols + c] has that index as id, row [r] and column [c], a ring
    of five points through its four corners that ends where it starts,
    south and west edges at the region origin plus [r] and [c] whole
    steps, north and east edges one step further, and its center at the
    midpoint of its bounds. *)
Theorem C5_grid_row_major :
  numRows = Z.to_nat (Qceiling ((north PORTLAND_BBOX - south PORTLAND_BBOX)
                                / GRID_LAT_STEP)) /\
  numCols = Z.to_nat (Qceiling ((east PORTLAND_BBOX - west PORTLAND_BBOX)
                                / GRID_LON_STEP)) /\
  (numRows = 31 /\ numCols = 36)%nat /\
  length generateGridCells = (numRows * numCols)%nat /\
  forall r c : nat, (r < numRows)%nat -> (c < numCols)%nat ->
    exists cell : Cell,
      generateGridCells !! (r * numCols + c)%nat = Some cell /\
      cell_id cell = (r * numCols + c)%nat /\
      row cell = r /\ col cell = c /\
      geometry cell =
        [ {| lat := minLat (bounds cell); lon := minLon (bounds cell) |};
          {| lat := maxLat (bounds cell); lon := minLon (bounds cell) |};
          {| lat := maxLat (bounds cell); lon := maxLon (bounds cell) |};
          {| lat := minLat (bounds cell); lon := maxLon (bounds cell) |};
          {| lat := minLat (bounds cell); lon := minLon (bounds cell) |} ] /\
      head (geometry cell) = last (geometry cell) /\
      minLat (bounds cell) = south PORTLAND_BBOX + num r * GRID_LAT_STEP /\
      minLon (bounds cell) = west PORTLAND_BBOX + num c * GRID_LON_STEP /\
      maxLat (bounds cell) = minLat (bounds cell) + GRID_LAT_STEP /\
      maxLon (bounds cell) = minLon (bounds cell) + GRID_LON_STEP /\
      centerLat cell = (minLat (bounds cell) + maxLat (bounds cell)) / 2 /\
      centerLon cell = (minLon (bounds cell) + maxLon (bounds cell)) / 2.
Proof.
  split; [reflexivity|]. split; [reflexivity|].
  split; [split; [apply numRows_eq|apply numCols_eq]|].
  split.
  - unfold generateGridCells, Grid.cellsOver.
    apply (length_nested
             (Grid.cellAt PORTLAND_BBOX GRID_LAT_STEP GRID_LON_STEP)).
  - intros r c Hr Hc.
    exists (Grid.cellAt PORTLAND_BBOX GRID_LAT_STEP GRID_LON_STEP r c).
    split; [apply generateGridCells_lookup; assumption|].
    repeat split.
Qed.

Lemma C5_grid_row_major_witness :
  exists cell : Cell,
    generateGridCells !! 37%nat = Some cell /\
    cell_id cell = 37%nat /\ row cell = 1%nat /\ col cell = 1%nat.
Proof.
  destruct C5_grid_row_major as (_ & _ & _ & _ & H).
  destruct (H 1%nat 1%nat) as (cell & Hl & Hid & Hr & Hc & _).
  - rewrite numRows_eq. lia.
  - rewrite numCols_eq. lia.
  - exists cell. rewrite numCols_eq in Hl, Hid.
    repeat split; assumption.
Defined.

Lemma generateGridCells_bounds (r c : nat) :
  bounds (Grid.cellAt PORTLAND_BBOX GRID_LAT_STEP GRID_LON_STEP r c) =
  {| minLat := south PORTLAND_BBOX + num r * GRID_LAT_STEP;
     maxLat := south PORTLAND_BBOX + num r * GRID_LAT_STEP + GRID_LAT_STEP;
     minLon := west PORTLAND_BBOX + num c * GRID_LON_STEP;
     maxLon := west PORTLAND_BBOX + num c * GRID_LON_STEP + GRID_LON_STEP |}.
Proof. reflexivity. Qed.

Lemma GRID_LAT_STEP_pos : 0 < GRID_LAT_STEP.
Proof. reflexivity. Qed.

Lemma GRID_LON_STEP_pos : 0 < GRID_LON_STEP.
Proof. reflexivity. Qed.

(** The union of the cell boxes is the rectangle of whole steps. *)
Lemma generateGridCells_union (p : Point) :
  (exists cell, In cell generateGridCells /\ inBounds (bounds cell) p) <->
  inSteps PORTLAND_BBOX GRID_LAT_STEP GRID_LON_STEP numRows numCols p.
Proof.
  split.
  - intros (cell & Hin & Hb).
    apply generateGridCells_in in Hin as (r & c & Hr & Hc & ->).
    rewrite generateGridCells_bounds in Hb.
    destruct Hb as [[H1 H2] [H3 H4]]; cbn in H1, H2, H3, H4.
    split.
    + exact (strip_inside _ _ _ _ _ GRID_LAT_STEP_pos Hr H1 H2).
    + exact (strip_inside _ _ _ _ _ GRID_LON_STEP_pos Hc H3 H4).
  - intros [[H1 H2] [H3 H4]].
    destruct (strip_cover _ _ _ numRows ltac:(rewrite numRows_eq; lia) H1 H2)
      as (r & Hr & Hr1 & Hr2).
    destruct (strip_cover _ _ _ numCols ltac:(rewrite numCols_eq; lia) H3 H4)
      as (c & Hc & Hc1 & Hc2).
    exists (Grid.cellAt PORTLAND_BBOX GRID_LAT_STEP GRID_LON_STEP r c).
    split; [apply generateGridCells_in; eauto|].
    rewrite generateGridCells_bounds. repeat split; assumption.
Qed.

Lemma region_in_steps (p : Point) :
  inRegion PORTLAND_BBOX p ->
  inSteps PORTLAND_BBOX GRID_LAT_STEP GRID_LON_STEP numRows numCols p.
Proof.
  intros [[H1 H2] [H3 H4]]. rewrite numRows_eq, numCols_eq.
  assert (E1 : north PORTLAND_BBOX
               <= south PORTLAND_BBOX + num 31 * GRID_LAT_STEP)
    by (apply Qle_bool_iff; vm_compute; reflexivity).
  assert (E2 : east PORTLAND_BBOX
               <= west PORTLAND_BBOX + num 36 * GRID_LON_STEP)
    by (apply Qle_bool_iff; vm_compute; reflexivity).
  repeat split; try assumption; lra.
Qed.



End GridClaims.

(** ** Geometry kernel: bounding box *)

Section BoundsFacts.
Local Open Scope Q_scope.

Lemma calculateBounds_empty : calculateBounds [] = None.
Proof. reflexivity. Qed.

Lemma Qmin_cases (x y : Q) :
  (Qmin x y = x /\ x <= y) \/ (Qmin x y = y /\ y <= x).
Proof.
  unfold Qmin, GenericMinMax.gmin.
  destruct (x ?= y) eqn:E.
  - left. split; [reflexivity|]. apply Qeq_alt in E. lra.
  - left. split; [reflexivity|]. apply Qlt_alt in E. lra.
  - right. split; [reflexivity|]. apply Qgt_alt in E. lra.
Qed.

Lemma Qmax_cases (x y : Q) :
  (Qmax x y = y /\ x <= y) \/ (Qmax x y = x /\ y <= x).
Proof.
  unfold Qmax, GenericMinMax.gmax.
  destruct (x ?= y) eqn:E.
  - right. split; [reflexivity|]. apply Qeq_alt in E. lra.
  - left. split; [reflexivity|]. apply Qlt_alt in E. lra.
  - right. split; [reflexivity|]. apply Qgt_alt in E. lra.
Qed.

(** Folding [Math.min] from a finite value yields the least element. *)
Lemma fold_Math_min (xs : list Q) (a : Q) :
  exists m, fold_left Math_min xs (Fin a) = Fin m /\
            m <= a /\ Forall (Qle m) xs /\ (m = a \/ In m xs).
Proof.
  revert a. induction xs as [|x xs IH]; intros a; cbn [fold_left Math_min].
  - exists a. repeat split; [lra|constructor|left; reflexivity].
  - destruct (IH (Qmin a x)) as (m & -> & Hle & Hall & Hin).
    exists m. split; [reflexivity|].
    destruct (Qmin_cases a x) as [[E Hax]|[E Hxa]]; rewrite E in *.
    + repeat split; [lra|constructor; [lra|assumption]|].
      destruct Hin; [left|right; right]; assumption.
    + repeat split; [lra|constructor; [lra|assumption]|].
      destruct Hin as [->|Hin]; right; [left; reflexivity|right; assumption].
Qed.

Lemma fold_Math_max (xs : list Q) (a : Q) :
  exists m, fold_left Math_max xs (Fin a) = Fin m /\
            a <= m /\ Forall (fun x => x <= m) xs /\ (m = a \/ In m xs).
Proof.
  revert a. induction xs as [|x xs IH]; intros a; cbn [fold_left Math_max].
  - exists a. repeat split; [lra|constructor|left; reflexivity].
  - destruct (IH (Qmax a x)) as (m & -> & Hle & Hall & Hin).
    exists m. split; [reflexivity|].
    destruct (Qmax_cases a x) as [[E Hax]|[E Hxa]]; rewrite E in *.
    + repeat split; [lra|constructor; [lra|assumption]|].
      destruct Hin as [->|Hin]; right; [left; reflexivity|right; assumption].
    + repeat split; [lra|constructor; [lra|assumption]|].
      destruct Hin; [left|right; right]; assumption.
Qed.

(** On points whose coordinates are all truthy the fold works
    componentwise. *)
Lemma fold_boundsStep_truthy (geometry : list Point) (acc : Bounds ExtQ) :
  Forall (fun p => truthy (lat p) && truthy (lon p) = true) geometry ->
  fold_left boundsStep geometry acc =
  {| minLat := fold_left Math_min (map lat geometry) (minLat acc);
     maxLat := fold_left Math_max (map lat geometry) (maxLat acc);
     minLon := fold_left Math_min (map lon geometry) (minLon acc);
     maxLon := fold_left Math_max (map lon geometry) (maxLon acc) |}.
Proof.
  intros H. revert acc.
  induction H as [|p l Hp _ IH]; intros acc.
  - destruct acc; reflexivity.
  - cbn [fold_left map]. rewrite IH. unfold boundsStep. rewrite Hp.
    reflexivity.
Qed.

(** Off the zero coordinates [calculateBounds] is the componentwise
    minimum and maximum. *)
Lemma calculateBounds_truthy (geometry : list Point) :
  geometry <> [] ->
  Forall (fun p => truthy (lat p) && truthy (lon p) = true) geometry ->
  exists s n w e : Q,
    calculateBounds geometry =
      Some {| minLat := Fin s; maxLat := Fin n;
              minLon := Fin w; maxLon := Fin e |} /\
    (Forall (fun p => s <= lat p /\ lat p <= n) geometry /\
     In s (map lat geometry) /\ In n (map lat geometry)) /\
    (Forall (fun p => w <= lon p /\ lon p <= e) geometry /\
     In w (map lon geometry) /\ In e (map lon geometry)).
Proof.
  intros Hne Hall. destruct geometry as [|p l]; [congruence|].
  unfold calculateBounds. rewrite fold_boundsStep_truthy by assumption.
  cbn [map fold_left minLat maxLat minLon maxLon Math_min Math_max].
  destruct (fold_Math_min (map lat l) (lat p)) as (s & -> & Hs1 & Hs2 & Hs3).
  destruct (fold_Math_max (map lat l) (lat p)) as (n & -> & Hn1 & Hn2 & Hn3).
  destruct (fold_Math_min (map lon l) (lon p)) as (w & -> & Hw1 & Hw2 & Hw3).
  destruct (fold_Math_max (map lon l) (lon p)) as (e & -> & He1 & He2 & He3).
  exists s, n, w, e. split; [reflexivity|].
  rewrite Forall_map in Hs2, Hn2, Hw2, He2.
  split; (split; [|split]).
  - constructor; [split; assumption|].
    rewrite Forall_forall in *. intros q Hq. split; auto.
  - destruct Hs3 as [->|?]; [left; reflexivity|right; assumption].
  - destruct Hn3 as [->|?]; [left; reflexivity|right; assumption].
  - constructor; [split; assumption|].
    rewrite Forall_forall in *. intros q Hq. split; auto.
  - destruct Hw3 as [->|?]; [left; reflexivity|right; assumption].
  - destruct He3 as [->|?]; [left; reflexivity|right; assumption].
Qed.

(** C7.  On the one-point geometry [[{ lat: 0, lon: 10 }]] the function
    returns infinite bounds: the point is skipped because its latitude
    [0] is falsy, where the componentwise minimum and maximum are
    [0, 0, 10, 10]. *)
Theorem C7_bounds_skip_zero_coordinate :
  calculateBounds [ {| lat := 0; lon := 10 |} ] =
  Some {| minLat := PosInfinity; maxLat := NegInfinity;
          minLon := PosInfinity; maxLon := NegInfinity |}.
Proof. reflexivity. Qed.
End BoundsFacts.

(** ** Geometry kernel: polygon area *)

Section AreaFacts.
Local Open Scope Q_scope.





















(** C10.  On every array of points, of any length and shape,
    [calculateArea] returns at least [0.01]; in particular it never
    returns zero. *)
Theorem C10_area_floor (geometry : list Point) :
  (0.01 <= calculateArea geometry)%R /\ calculateArea geometry <> 0%R.
Proof.
  assert (H : (0.01 <= calculateArea geometry)%R).
  { unfold calculateArea. destruct (length geometry <? 3)%nat.
    - apply Rle_refl.
    - apply Rmax_r. }
  split; [exact H|]. intros E. rewrite E in H. lra.
Qed.
End AreaFacts.

(** ** Proximity scorer *)

Section DistanceFacts.
Local Open Scope R_scope.

Lemma atan_nonneg (x : R) : 0 <= x -> 0 <= atan x.
Proof.
  intros [H| <-].
  - left. rewrite <- atan_0. apply atan_increasing. exact H.
  - rewrite atan_0. apply Rle_refl.
Qed.

Lemma atan2_nonneg (y x : R) : 0 <= y -> 0 <= x -> 0 <= atan2 y x.
Proof.
  intros Hy Hx. unfold atan2.
  destruct (Rlt_dec 0 x) as [Hpos|_].
  - apply atan_nonneg. apply Rmult_le_pos; [exact Hy|].
    left. apply Rinv_0_lt_compat. exact Hpos.
  - destruct (Rlt_dec x 0) as [Hneg|_]; [lra|].
    destruct (Rlt_dec 0 y) as [_|_].
    + left. apply PI2_RGT_0.
    + destruct (Rlt_dec y 0); [lra|apply Rle_refl].
Qed.

(** The haversine distance is never negative. *)
Lemma calculateDistance_nonneg (lat1 lon1 lat2 lon2 : R) :
  0 <= calculateDistance lat1 lon1 lat2 lon2.
Proof.
  unfold calculateDistance.
  match goal with
  | |- 0 <= 6371 * (2 * atan2 ?y ?x) =>
      pose proof (atan2_nonneg y x (sqrt_pos _) (sqrt_pos _))
  end.
  lra.
Qed.

Lemma scoreOf_range (d : Distance) :
  (forall x, d = Finite x -> 0 <= x) -> 0 <= scoreOf d <= 100.
Proof.
  intros H. destruct d as [|x]; cbn [scoreOf]; [lra|].
  specialize (H x eq_refl).
  pose proof (exp_pos (- x / 0.5)) as Hp.
  assert (Hle : exp (- x / 0.5) <= 1).
  { rewrite <- exp_0. destruct H as [H| <-].
    - left. apply exp_increasing. lra.
    - right. f_equal. lra. }
  lra.
Qed.
End DistanceFacts.

Section SortFacts.
Context {A : Type} (key : A -> R).
Local Open Scope R_scope.

Lemma insertSorted_perm (x : A) (l : list A) :
  Permutation (x :: l) (insertSorted (byKeyDesc key) x l).
Proof.
  induction l as [|y l IH]; cbn [insertSorted]; [reflexivity|].
  destruct (Rle_dec (byKeyDesc key x y) 0); [reflexivity|].
  rewrite perm_swap. apply perm_skip. exact IH.
Qed.

Lemma sort_perm (l : list A) : Permutation l (sort (byKeyDesc key) l).
Proof.
  induction l as [|x l IH]; [reflexivity|].
  cbn [sort fold_right]. rewrite <- insertSorted_perm.
  apply perm_skip. exact IH.
Qed.

Lemma insertSorted_sorted (x : A) (l : list A) :
  Sorted (fun a b => key b <= key a) l ->
  Sorted (fun a b => key b <= key a) (insertSorted (byKeyDesc key) x l).
Proof.
  induction 1 as [|y l Hs IH Hhd]; cbn [insertSorted].
  - repeat constructor.
  - unfold byKeyDesc at 1. destruct (Rle_dec (key y - key x) 0) as [Hle|Hgt].
    + constructor; [constructor; assumption|]. constructor. lra.
    + constructor; [exact IH|].
      destruct l as [|z l]; cbn [insertSorted].
      * constructor. lra.
      * destruct (Rle_dec (byKeyDesc key x z) 0); constructor; try lra.
        inversion Hhd; subst. assumption.
Qed.

Lemma sort_sorted (l : list A) :
  Sorted (fun a b => key b <= key a) (sort (byKeyDesc key) l).
Proof.
  induction l as [|x l IH]; [constructor|].
  cbn [sort fold_right]. apply insertSorted_sorted. exact IH.
Qed.

Lemma insertSorted_stable (s : R) (x : A) (l : list A) :
  List.filter (keyIs key s) (insertSorted (byKeyDesc key) x l)
  = List.filter (keyIs key s) (x :: l).
Proof.
  induction l as [|y l IH]; cbn [insertSorted]; [reflexivity|].
  unfold byKeyDesc at 1. destruct (Rle_dec (key y - key x) 0) as [Hle|Hgt];
    [reflexivity|].
  cbn [List.filter] in *. rewrite IH. unfold keyIs.
  destruct (Req_dec_T (key y) s), (Req_dec_T (key x) s);
    try reflexivity. lra.
Qed.

Lemma sort_stable (s : R) (l : list A) :
  List.filter (keyIs key s) (sort (byKeyDesc key) l) = List.filter (keyIs key s) l.
Proof.
  induction l as [|x l IH]; [reflexivity|].
  cbn [sort fold_right]. rewrite insertSorted_stable.
  cbn [List.filter]. fold (sort (byKeyDesc key) l). rewrite IH. reflexivity.
Qed.

Lemma sorted_adjacent (l : list A) (i : nat) (a b : A) :
  Sorted (fun a b => key b <= key a) l ->
  l !! i = Some a -> l !! S i = Some b -> key b <= key a.
Proof.
  intros Hs. revert i. induction Hs as [|y l Hs IH Hhd]; intros i Ha Hb.
  - discriminate Ha.
  - destruct i as [|i].
    + cbn in Ha, Hb. injection Ha as <-.
      destruct l as [|z l]; [discriminate Hb|].
      cbn in Hb. injection Hb as <-. inversion Hhd; subst. assumption.
    + cbn in Ha, Hb. eapply IH; eassumption.
Qed.
End SortFacts.

Section ScanFacts.
Local Open Scope R_scope.
Variable cell : Cell.

(** The array [cell.businesses] only grows during the scan: every business
    within the bounds is pushed after what the array held on entry. *)
Lemma scan_businesses_fold (bs : list Business) (s : Scan) :
  scan_businesses (fold_left (visit cell) bs s)
  = scan_businesses s ++ List.filter (within cell) bs.
Proof.
  revert s. induction bs as [|b bs IH]; intros s; cbn [fold_left List.filter].
  - rewrite app_nil_r. reflexivity.
  - rewrite IH. cbn [visit scan_businesses].
    destruct (within cell b); [rewrite <- app_assoc|]; reflexivity.
Qed.

(** Once a business has been seen, the scan holds the least distance seen
    and a business at that distance. *)
Lemma scan_nearest_fold (bs : list Business) (s : Scan) (m : R)
    (b0 : Business) :
  scan_minDistance s = Finite m -> scan_nearest s = Some b0 ->
  m = distanceTo cell b0 ->
  exists (d : R) (b : Business),
    scan_minDistance (fold_left (visit cell) bs s) = Finite d /\
    scan_nearest (fold_left (visit cell) bs s) = Some b /\
    d = distanceTo cell b /\ (b = b0 \/ In b bs) /\
    d <= m /\ (forall b', In b' bs -> d <= distanceTo cell b').
Proof.
  revert s m b0. induction bs as [|x bs IH]; intros s m b0 Hm Hn Hd.
  - exists m, b0. cbn [fold_left]. repeat split; auto; try lra.
    intros b' [].
  - cbn [fold_left].
    destruct (Rlt_dec (distanceTo cell x) m) as [Hlt|Hge].
    + destruct (IH (visit cell s x) (distanceTo cell x) x)
        as (d & b & H1 & H2 & H3 & H4 & H5 & H6).
      * cbn [visit scan_minDistance]. rewrite Hm. cbn [closer].
        destruct (Rlt_dec (distanceTo cell x) m); [reflexivity|contradiction].
      * cbn [visit scan_nearest]. rewrite Hm. cbn [closer].
        destruct (Rlt_dec (distanceTo cell x) m); [reflexivity|contradiction].
      * reflexivity.
      * exists d, b. repeat split; auto.
        -- right. destruct H4 as [->|H4]; [left; reflexivity|right; exact H4].
        -- lra.
        -- intros b' [<-|Hb']; [exact H5|apply H6; exact Hb'].
    + destruct (IH (visit cell s x) m b0)
        as (d & b & H1 & H2 & H3 & H4 & H5 & H6).
      * cbn [visit scan_minDistance]. rewrite Hm. cbn [closer].
        destruct (Rlt_dec (distanceTo cell x) m); [contradiction|reflexivity].
      * cbn [visit scan_nearest]. rewrite Hm. cbn [closer].
        destruct (Rlt_dec (distanceTo cell x) m); [contradiction|exact Hn].
      * exact Hd.
      * exists d, b. repeat split; auto.
        -- destruct H4 as [->|H4]; [left; reflexivity|right; right; exact H4].
        -- intros b' [<-|Hb']; [lra|apply H6; exact Hb'].
Qed.
End ScanFacts.

Section ScoreCellFacts.
Local Open Scope R_scope.

Lemma distanceTo_scoreCell (bs : list Business) (c : Cell) (b : Business) :
  distanceTo (scoreCell bs c) b = distanceTo c b.
Proof. reflexivity. Qed.

Lemma within_scoreCell (bs : list Business) (c : Cell) (b : Business) :
  within (scoreCell bs c) b = within c b.
Proof. reflexivity. Qed.

Lemma businesses_scoreCell (bs : list Business) (c : Cell) :
  businesses (scoreCell bs c) = businesses c ++ List.filter (within c) bs.
Proof.
  cbn [scoreCell businesses]. rewrite scan_businesses_fold. reflexivity.
Qed.

Lemma businessCount_scoreCell (bs : list Business) (c : Cell) :
  businessCount (scoreCell bs c) = Some (length (businesses (scoreCell bs c))).
Proof. reflexivity. Qed.

Lemma businessesByCategory_scoreCell (bs : list Business) (c : Cell) :
  businessesByCategory (scoreCell bs c)
  = fold_left bucket (businesses (scoreCell bs c)) ∅.
Proof. reflexivity. Qed.

(** What one pass leaves on a cell when there is no business at all. *)
Lemma scoreCell_empty (c : Cell) :
  proximityScore (scoreCell [] c) = 0 /\
  nearestBusiness (scoreCell [] c) = None /\
  minDistance (scoreCell [] c) = Some Infinity.
Proof. repeat split. Qed.

(** What one pass leaves on a cell when there is at least one business. *)
Lemma scoreCell_nonempty (bs : list Business) (c : Cell) :
  bs <> [] ->
  exists (d : R) (b : Business),
    minDistance (scoreCell bs c) = Some (Finite d) /\
    nearestBusiness (scoreCell bs c) = Some b /\
    In b bs /\ d = distanceTo c b /\
    (forall b', In b' bs -> d <= distanceTo c b') /\
    proximityScore (scoreCell bs c) = 100 * exp (- d / 0.5).
Proof.
  intros Hne. destruct bs as [|x bs]; [congruence|].
  cbn [scoreCell minDistance nearestBusiness proximityScore fold_left].
  destruct (scan_nearest_fold c bs
              (visit c {| scan_minDistance := Infinity; scan_nearest := None;
                          scan_businesses := businesses c |} x)
              (distanceTo c x) x eq_refl eq_refl eq_refl)
    as (d & b & H1 & H2 & H3 & H4 & H5 & H6).
  exists d, b. rewrite H1, H2. repeat split; auto.
  - destruct H4 as [->|H4]; [left; reflexivity|right; exact H4].
  - intros b' [<-|Hb']; [exact H5|apply H6; exact Hb'].
Qed.

Lemma scoreCell_range (bs : list Business) (c : Cell) :
  0 <= proximityScore (scoreCell bs c) <= 100.
Proof.
  destruct bs as [|x bs].
  - cbn. lra.
  - destruct (scoreCell_nonempty (x :: bs) c) as (d & b & _ & _ & _ & Hd & _ & ->);
      [discriminate|].
    apply (scoreOf_range (Finite d)). intros y [= <-]. rewrite Hd.
    apply calculateDistance_nonneg.
Qed.

Lemma in_calculateProximityScores (st : AppState) (cell : Cell) :
  In cell (gridCells (calculateProximityScores st)) <->
  exists c, In c (gridCells st) /\ cell = scoreCell (allBusinesses st) c.
Proof.
  cbn [calculateProximityScores gridCells].
  change compareFn with (byKeyDesc proximityScore).
  split.
  - intros H. eapply Permutation_in in H;
      [|symmetry; apply sort_perm].
    apply in_map_iff in H as (c & <- & Hc). eauto.
  - intros (c & Hc & ->). eapply Permutation_in; [apply sort_perm|].
    apply in_map. exact Hc.
Qed.
End ScoreCellFacts.

Section ScorerClaims.
Local Open Scope R_scope.



(** C8.  The cells left by a scoring pass are a permutation of the scored
    cells, each cell's score is at least the score of the next cell, and
    for every score value the cells with that score appear in the same
    order as before the sort. *)
Theorem C8_sorted_descending_stable (st : AppState) :
  let scored := map (scoreCell (allBusinesses st)) (gridCells st) in
  let sorted := gridCells (calculateProximityScores st) in
  Permutation scored sorted /\
  (forall (i : nat) (a b : Cell),
      sorted !! i = Some a -> sorted !! S i = Some b ->
      proximityScore a >= proximityScore b) /\
  (forall s : R,
      List.filter (keyIs proximityScore s) sorted
      = List.filter (keyIs proximityScore s) scored).
Proof.
  cbn zeta. cbn [calculateProximityScores gridCells].
  change compareFn with (byKeyDesc proximityScore).
  split; [apply sort_perm|]. split.
  - intros i a b Ha Hb. apply Rle_ge.
    exact (sorted_adjacent proximityScore _ i a b (sort_sorted _ _) Ha Hb).
  - intros s. apply sort_stable.
Qed.

(** The aggregate computation does not depend on what an earlier run left
    in [gridCells]: run again on its own result, or on any state with the
    same businesses, it yields the same cells in the same order. *)
Lemma aggregate_deterministic (st1 st2 : AppState) :
  allBusinesses st1 = allBusinesses st2 -> aggregate st1 = aggregate st2.
Proof. intros H. unfold aggregate. rewrite H. reflexivity. Qed.

Lemma aggregate_idempotent (st : AppState) :
  aggregate (aggregate st) = aggregate st.
Proof. apply aggregate_deterministic. reflexivity. Qed.

(** A second pass over cells that were scored already appends to
    [cell.businesses] again. *)
Lemma businesses_second_pass (bs : list Business) (c : Cell) :
  businesses (scoreCell bs (scoreCell bs c))
  = businesses c ++ List.filter (within c) bs ++ List.filter (within c) bs.
Proof.
  rewrite !businesses_scoreCell, <- app_assoc. reflexivity.
Qed.

(** C2.  With one business in the south-west corner cell, a scoring pass
    followed by a second scoring pass over the same cells leaves that cell
    with the business twice in [businesses], [businessCount = 2] and the
    business twice in its category bucket, where one pass leaves it once:
    the second pass starts from the array the first pass filled. *)
Theorem C2_second_pass_accumulates :
  let once := calculateProximityScores (loaded [cornerCafe]) in
  let twice := calculateProximityScores once in
  (exists cell, In cell (gridCells once) /\ cell_id cell = 0%nat /\
                businesses cell = [cornerCafe] /\
                businessCount cell = Some 1%nat /\
                businessesByCategory cell !! "cafe"%string
                = Some [cornerCafe]) /\
  (exists cell, In cell (gridCells twice) /\ cell_id cell = 0%nat /\
                businesses cell = [cornerCafe; cornerCafe] /\
                businessCount cell = Some 2%nat /\
                businessesByCategory cell !! "cafe"%string
                = Some [cornerCafe; cornerCafe]).
Proof.
  intros once twice.
  set (c0 := Grid.cellAt PORTLAND_BBOX GRID_LAT_STEP GRID_LON_STEP 0 0).
  assert (Hc0 : In c0 generateGridCells).
  { apply generateGridCells_in. exists 0%nat, 0%nat.
    rewrite numRows_eq, numCols_eq. repeat split; lia. }
  assert (Hw : List.filter (within c0) [cornerCafe] = [cornerCafe])
    by (vm_compute; reflexivity).
  assert (H1 : In (scoreCell [cornerCafe] c0) (gridCells once)).
  { apply in_calculateProximityScores. exists c0. split; [exact Hc0|].
    reflexivity. }
  assert (H2 : In (scoreCell [cornerCafe] (scoreCell [cornerCafe] c0))
                  (gridCells twice)).
  { apply in_calculateProximityScores. eexists. split; [exact H1|].
    reflexivity. }
  assert (B1 : businesses (scoreCell [cornerCafe] c0) = [cornerCafe]).
  { rewrite businesses_scoreCell, Hw. reflexivity. }
  assert (B2 : businesses (scoreCell [cornerCafe] (scoreCell [cornerCafe] c0))
               = [cornerCafe; cornerCafe]).
  { rewrite businesses_second_pass, Hw. reflexivity. }
  split.
  - eexists. split; [exact H1|]. split; [reflexivity|].
    rewrite businessCount_scoreCell, businessesByCategory_scoreCell, B1.
    repeat split.
  - eexists. split; [exact H2|]. split; [reflexivity|].
    rewrite businessCount_scoreCell, businessesByCategory_scoreCell, B2.
    repeat split.
Qed.
End ScorerClaims.

(** ** Boundary reconstructor *)

Section ChainFacts.
Variable waySegments : list Way.

Lemma coordsMatch_None_l (b : option Point) : coordsMatch None b = false.
Proof. reflexivity. Qed.

Lemma findNext_None_end (used : gset Z) (ways : list Way) :
  findNext None used ways = None.
Proof.
  induction ways as [|w ways IH]; [reflexivity|].
  cbn [findNext]. rewrite !coordsMatch_None_l, IH.
  destruct (bool_decide _); reflexivity.
Qed.

(** The way picked by the inner loop is not used yet. *)
Lemma findNext_fresh (ce : option Point) (used : gset Z) (ways : list Way)
    (way : Way) (reversed : bool) :
  findNext ce used ways = Some (way, reversed) ->
  (way_id way ∉ used) /\ In way ways.
Proof.
  induction ways as [|w ways IH]; [discriminate|].
  cbn [findNext]. destruct (bool_decide (way_id w ∈ used)) eqn:E.
  - intros H. destruct (IH H). split; [assumption|right; assumption].
  - apply bool_decide_eq_false in E.
    destruct (coordsMatch ce (startNode w)).
    { intros [= <- <-]. split; [assumption|left; reflexivity]. }
    destruct (coordsMatch ce (endNode w)).
    { intros [= <- <-]. split; [assumption|left; reflexivity]. }
    intros H. destruct (IH H). split; [assumption|right; assumption].
Qed.

Lemma size_used_append (st : ChainState) (way : Way) (reversed : bool) :
  way_id way ∉ used st ->
  size (used (append st way reversed)) = S (size (used st)).
Proof.
  intros Hfresh. unfold append.
  destruct reversed; cbn [used];
    (rewrite size_union by set_solver); rewrite size_singleton; reflexivity.
Qed.

(** Fuel: once [waySegments.length <= used.size + fuel], more fuel does not
    change the state in which the [while] loop stops. *)
Lemma extend_fuel (fuel extra : nat) (st : ChainState) :
  length waySegments <= size (used st) + fuel ->
  extend (fuel + extra) waySegments st = extend fuel waySegments st.
Proof.
  revert st. induction fuel as [|fuel IH]; intros st Hle.
  - cbn [Nat.add extend]. destruct extra as [|extra]; [reflexivity|].
    cbn [extend].
    destruct (size (used st) <? length waySegments) eqn:E; [|reflexivity].
    apply Nat.ltb_lt in E. lia.
  - cbn [Nat.add extend].
    destruct (size (used st) <? length waySegments) eqn:E; [|reflexivity].
    destruct (findNext (currentEnd st) (used st) waySegments)
      as [[way reversed]|] eqn:F; [|reflexivity].
    apply findNext_fresh in F as [Hfresh _].
    apply IH. rewrite size_used_append by assumption. lia.
Qed.

Lemma chainFrom_fuel (seed : Way) (extra : nat) :
  extend (length waySegments + extra) waySegments
    {| result := coords seed; used := {[ way_id seed ]};
       currentEnd := last (coords seed) |}
  = chainFrom waySegments seed.
Proof.
  unfold chainFrom. apply extend_fuel. cbn [used].
  rewrite size_singleton. lia.
Qed.

(** The chain keeps the seed's coordinates as a prefix and the seed's id
    among the used ids. *)
Lemma extend_grows (fuel : nat) (st : ChainState) :
  (exists more, result (extend fuel waySegments st) = result st ++ more) /\
  used st ⊆ used (extend fuel waySegments st).
Proof.
  revert st. induction fuel as [|fuel IH]; intros st; cbn [extend].
  - split; [exists []; rewrite app_nil_r; reflexivity|reflexivity].
  - destruct (size (used st) <? length waySegments);
      [|split; [exists []; rewrite app_nil_r; reflexivity|reflexivity]].
    destruct (findNext (currentEnd st) (used st) waySegments)
      as [[way reversed]|];
      [|split; [exists []; rewrite app_nil_r; reflexivity|reflexivity]].
    pose proof (IH (append st way reversed)) as [[more Hm] Hu].
    split.
    + rewrite Hm. unfold append. destruct reversed; cbn [result];
        rewrite <- app_assoc; eexists; reflexivity.
    + etransitivity; [|exact Hu]. unfold append.
      destruct reversed; cbn [used]; apply union_subseteq_r.
Qed.

Lemma usedCount_pos (seed : Way) : 1 <= usedCount waySegments seed.
Proof.
  unfold usedCount, chainFrom.
  destruct (extend_grows (length waySegments)
              {| result := coords seed; used := {[ way_id seed ]};
                 currentEnd := last (coords seed) |}) as [_ Hu].
  cbn [used] in Hu. apply subseteq_size in Hu.
  rewrite size_singleton in Hu. exact Hu.
Qed.

(** A chain whose end is undefined cannot be extended. *)
Lemma extend_no_end (fuel : nat) (st : ChainState) :
  currentEnd st = None -> extend fuel waySegments st = st.
Proof.
  intros He. destruct fuel as [|fuel]; [reflexivity|].
  cbn [extend]. rewrite He, findNext_None_end.
  destruct (_ <? _); reflexivity.
Qed.

(** A seed that used every one of two or more segments has a chain with at
    least one point. *)
Lemma usesAll_result_nonempty (seed : Way) :
  2 <= length waySegments -> usesAll waySegments seed = true ->
  0 < length (result (chainFrom waySegments seed)).
Proof.
  intros HN Hall. apply Nat.eqb_eq in Hall. unfold usedCount in Hall.
  destruct (coords seed) as [|p rest] eqn:Ec.
  - exfalso. unfold chainFrom in Hall. rewrite Ec in Hall.
    rewrite extend_no_end in Hall by reflexivity.
    cbn [used] in Hall. rewrite size_singleton in Hall. lia.
  - unfold chainFrom.
    destruct (extend_grows (length waySegments)
                {| result := coords seed; used := {[ way_id seed ]};
                   currentEnd := last (coords seed) |}) as [[more Hm] _].
    rewrite Hm. cbn [result]. rewrite Ec, length_app. cbn [length]. lia.
Qed.

(** The seed loop when no seed among those still to try uses every
    segment: either the best chain so far stays, or the first seed beating
    it, and beaten by no later seed, replaces it. *)
Lemma trySeeds_partial (seeds : list Way) (bestChain : option (list Point))
    (bestUsed : nat) :
  (forall seed, In seed seeds -> usesAll waySegments seed = false) ->
  (trySeeds waySegments seeds bestChain bestUsed = useBest bestChain /\
   forall s, In s seeds -> usedCount waySegments s <= bestUsed) \/
  (exists pre seed post,
      seeds = pre ++ seed :: post /\
      bestUsed < usedCount waySegments seed /\
      (forall s, In s pre ->
                 usedCount waySegments s < usedCount waySegments seed) /\
      (forall s, In s post ->
                 usedCount waySegments s <= usedCount waySegments seed) /\
      trySeeds waySegments seeds bestChain bestUsed
      = useBest (Some (result (chainFrom waySegments seed)))).
Proof.
  revert bestChain bestUsed.
  induction seeds as [|seed rest IH]; intros bestChain bestUsed Hno.
  - left. split; [reflexivity|]. intros s [].
  - assert (Hseed : usesAll waySegments seed = false)
      by (apply Hno; left; reflexivity).
    assert (Hrest : forall s, In s rest -> usesAll waySegments s = false)
      by (intros s Hs; apply Hno; right; exact Hs).
    unfold usesAll, usedCount in Hseed.
    cbn [trySeeds]. rewrite Hseed.
    fold (usedCount waySegments seed).
    destruct (bestUsed <? usedCount waySegments seed) eqn:E.
    + apply Nat.ltb_lt in E. right.
      destruct (IH (Some (result (chainFrom waySegments seed)))
                   (usedCount waySegments seed) Hrest)
        as [[Heq Hle]|(pre & s' & post & -> & Hlt & Hpre & Hpost & Heq)].
      * exists [], seed, rest. repeat split; auto. intros s [].
      * exists (seed :: pre), s', post. repeat split; auto; try lia.
        intros s [<-|Hs]; [exact Hlt|apply Hpre; exact Hs].
    + apply Nat.ltb_ge in E.
      destruct (IH bestChain bestUsed Hrest)
        as [[Heq Hle]|(pre & s' & post & -> & Hlt & Hpre & Hpost & Heq)].
      * left. split; [exact Heq|].
        intros s [<-|Hs]; [exact E|apply Hle; exact Hs].
      * right. exists (seed :: pre), s', post. repeat split; auto.
        intros s [<-|Hs]; [lia|apply Hpre; exact Hs].
Qed.

(** The seed loop returns at the first seed that uses every segment. *)
Lemma trySeeds_full (pre post : list Way) (seed : Way)
    (bestChain : option (list Point)) (bestUsed : nat) :
  (forall s, In s pre -> usesAll waySegments s = false) ->
  usesAll waySegments seed = true ->
  0 < length (result (chainFrom waySegments seed)) ->
  trySeeds waySegments (pre ++ seed :: post) bestChain bestUsed
  = Some (closedChain (chainFrom waySegments seed)).
Proof.
  intros Hpre Hall Hlen. revert bestChain bestUsed.
  induction pre as [|s pre IH]; intros bestChain bestUsed.
  - cbn [app trySeeds]. unfold usesAll, usedCount in Hall. rewrite Hall.
    unfold closedChain.
    destruct (coordsMatch _ _); [reflexivity|].
    apply Nat.ltb_lt in Hlen. rewrite Hlen. reflexivity.
  - assert (Hs : usesAll waySegments s = false)
      by (apply Hpre; left; reflexivity).
    unfold usesAll, usedCount in Hs.
    cbn [app trySeeds]. rewrite Hs.
    destruct (bestUsed <? _); apply IH;
      intros s' Hs'; apply Hpre; right; exact Hs'.
Qed.
End ChainFacts.

Section ChainClaims.

(** C3, amended.  With two or more segments of which no seed's chain uses
    every one, the reconstructor takes the chain of the first seed, in
    input order, that used the maximum number of segments; if that chain has
    fewer than 3 points the result is null; otherwise it drops each point
    that matches its predecessor within the tolerance, appends the first
    point unless the last point matches it, and returns the ring if it has
    at least 3 points, the closing point included, and null otherwise. *)
Theorem C3_best_effort_chain (waySegments : list Way) :
  2 <= length waySegments ->
  (forall seed, In seed waySegments -> usesAll waySegments seed = false) ->
  exists (k : nat) (seed : Way),
    waySegments !! k = Some seed /\
    (forall j s, waySegments !! j = Some s ->
                 usedCount waySegments s <= usedCount waySegments seed) /\
    (forall j s, j < k -> waySegments !! j = Some s ->
                 usedCount waySegments s < usedCount waySegments seed) /\
    let bestChain := result (chainFrom waySegments seed) in
    let cleaned := forceClose (removeConsecutive None bestChain) in
    chainWays waySegments =
    Returns (if (3 <=? length bestChain) && (3 <=? length cleaned)
             then Some cleaned else None).
Proof.
  intros HN Hno.
  destruct (trySeeds_partial waySegments waySegments None 0 Hno)
    as [[_ Hle]|(pre & seed & post & Hsplit & _ & Hpre & Hpost & Heq)].
  - exfalso. destruct waySegments as [|w ws]; [cbn in HN; lia|].
    pose proof (Hle w (or_introl eq_refl)) as H0.
    pose proof (usedCount_pos (w :: ws) w). lia.
  - exists (length pre), seed.
    assert (Hk : waySegments !! length pre = Some seed).
    { rewrite Hsplit at 1. apply list_lookup_middle. reflexivity. }
    split; [exact Hk|]. split; [|split].
    + intros j s Hj. apply list_elem_of_lookup_2, list_elem_of_In in Hj.
      rewrite Hsplit in Hj at 1. apply in_app_or in Hj as [Hj|[<-|Hj]].
      * apply Nat.lt_le_incl, Hpre, Hj.
      * apply Nat.le_refl.
      * apply Hpost, Hj.
    + intros j s Hjk Hj. apply Hpre.
      rewrite Hsplit in Hj at 1. rewrite lookup_app_l in Hj by exact Hjk.
      apply list_elem_of_lookup_2, list_elem_of_In in Hj. exact Hj.
    + cbn zeta.
      destruct waySegments as [|w1 [|w2 ws]]; [cbn in HN; lia..|].
      unfold chainWays. rewrite Heq. unfold useBest.
      destruct (3 <=? length (result (chainFrom (w1 :: w2 :: ws) seed)));
        reflexivity.
Qed.

Lemma C3_best_effort_chain_witness :
  exists (k : nat) (seed : Way),
    looseWays !! k = Some seed /\
    chainWays looseWays =
    Returns
      (if (3 <=? length (result (chainFrom looseWays seed))) &&
          (3 <=? length (forceClose (removeConsecutive None
                                       (result (chainFrom looseWays seed)))))
       then Some (forceClose (removeConsecutive None
                                (result (chainFrom looseWays seed))))
       else None).
Proof.
  destruct (C3_best_effort_chain looseWays) as (k & seed & Hk & _ & _ & H).
  - cbn. lia.
  - intros seed [<-|[<-|[]]]; vm_compute; reflexivity.
  - exists k, seed. split; [exact Hk|exact H].
Defined.

(** C3 as stated fails: of two ways that do not connect, the first with
    points A, B, B' (B' within the tolerance of B), no seed uses both; the
    ring returned is A, B, A, which has two distinct points. *)
Lemma C3_returns_two_distinct_points :
  (forall seed, In seed looseWays -> usesAll looseWays seed = false) /\
  chainWays looseWays = Returns (Some [ptA; ptB; ptA]) /\
  distinctPoints [ptA; ptB; ptA] = 2.
Proof.
  split; [|split].
  - intros seed [<-|[<-|[]]]; vm_compute; reflexivity.
  - vm_compute. reflexivity.
  - vm_compute. reflexivity.
Qed.

(** C4, amended.  With two or more segments, at the first seed, in input
    order, whose chain uses every segment the reconstructor returns at
    once, whatever the later seeds would give: the chain itself when its
    end matches its first point within the tolerance; otherwise the chain
    without the trailing points that match their predecessor, followed by
    a copy of the first point unless the last remaining point matches
    it. *)
Theorem C4_full_chain_returns (waySegments : list Way) (k : nat)
    (seed : Way) :
  2 <= length waySegments ->
  waySegments !! k = Some seed ->
  usesAll waySegments seed = true ->
  (forall j s, j < k -> waySegments !! j = Some s ->
               usesAll waySegments s = false) ->
  let st := chainFrom waySegments seed in
  chainWays waySegments =
  Returns (Some (if coordsMatch (currentEnd st) (head (result st))
                 then result st
                 else closeChain (result st))).
Proof.
  intros HN Hk Hall Hbefore. cbn zeta.
  pose proof (usesAll_result_nonempty waySegments seed HN Hall) as Hlen.
  apply list_elem_of_split_length in Hk as (pre & post & Hsplit & Hpre).
  assert (Hno : forall s, In s pre -> usesAll waySegments s = false).
  { intros s Hs. apply list_elem_of_In, list_elem_of_lookup_1 in Hs
      as (j & Hj).
    apply (Hbefore j s).
    - apply lookup_lt_Some in Hj. lia.
    - rewrite Hsplit. rewrite lookup_app_l by (apply lookup_lt_Some in Hj; lia).
      exact Hj. }
  pose proof (trySeeds_full waySegments pre post seed None 0 Hno Hall Hlen)
    as Heq.
  rewrite <- Hsplit in Heq.
  destruct waySegments as [|w1 [|w2 ws]]; [cbn in HN; lia..|].
  unfold chainWays. rewrite Heq. reflexivity.
Qed.

Lemma C4_full_chain_returns_witness :
  chainWays joinedWays =
  Returns (Some (closeChain [ptA; ptC; ptB; ptB'])).
Proof.
  pose proof (C4_full_chain_returns joinedWays 0
                (mkWay 201 [ptA; ptC])) as H.
  cbn zeta in H.
  assert (E : result (chainFrom joinedWays (mkWay 201 [ptA; ptC]))
              = [ptA; ptC; ptB; ptB']) by (vm_compute; reflexivity).
  assert (M : coordsMatch
                (currentEnd (chainFrom joinedWays (mkWay 201 [ptA; ptC])))
                (head (result (chainFrom joinedWays (mkWay 201 [ptA; ptC]))))
              = false) by (vm_compute; reflexivity).
  rewrite M, E in H. apply H.
  - cbn. lia.
  - reflexivity.
  - vm_compute. reflexivity.
  - intros j s Hj. lia.
Defined.

(** C4 as stated fails: two ways that connect, A-C and C-B-B' with B' within
    the tolerance of B, are used up by the first seed; its chain is
    A, C, B, B' and its end B' does not match A, but the ring returned is
    A, C, B, A, not the chain with its starting point appended. *)
Lemma C4_trailing_point_dropped :
  exists seed : Way,
    joinedWays !! 0 = Some seed /\
    usesAll joinedWays seed = true /\
    result (chainFrom joinedWays seed) = [ptA; ptC; ptB; ptB'] /\
    closeAsStated (result (chainFrom joinedWays seed))
    = [ptA; ptC; ptB; ptB'; ptA] /\
    chainWays joinedWays = Returns (Some [ptA; ptC; ptB; ptA]) /\
    chainWays joinedWays
    <> Returns (Some (closeAsStated (result (chainFrom joinedWays seed)))).
Proof.
  exists (mkWay 201 [ptA; ptC]).
  split; [reflexivity|]. split; [vm_compute; reflexivity|].
  split; [vm_compute; reflexivity|].
  assert (E : chainWays joinedWays = Returns (Some [ptA; ptC; ptB; ptA]))
    by (vm_compute; reflexivity).
  assert (S : closeAsStated
                (result (chainFrom joinedWays (mkWay 201 [ptA; ptC])))
              = [ptA; ptC; ptB; ptB'; ptA]) by (vm_compute; reflexivity).
  split; [exact S|]. split; [exact E|].
  rewrite E, S. intros H. apply (f_equal (fun r =>
    match r with Returns (Some l) => length l | _ => 0 end)) in H.
  cbn in H. discriminate H.
Qed.
End ChainClaims.

(* ================================================================== *)
(** * Further properties *)
(* ================================================================== *)

(** ** Point in polygon *)

Section PolygonFacts.
Local Open Scope Q_scope.

Lemma Qlt_bool_iff (x y : Q) : Qlt_bool x y = true <-> x < y.
Proof.
  unfold Qlt_bool. rewrite negb_true_iff. split.
  - intros H. apply Qnot_le_lt. intros Hle.
    apply Qle_bool_iff in Hle. congruence.
  - intros H. destruct (Qle_bool y x) eqn:E; [|reflexivity].
    apply Qle_bool_iff in E. lra.
Qed.

Lemma Qlt_bool_false (x y : Q) : Qlt_bool x y = false <-> y <= x.
Proof.
  unfold Qlt_bool. rewrite negb_false_iff. apply Qle_bool_iff.
Qed.




(** An edge is only counted when the point's latitude lies between the
    latitudes of its ends, the lower one included. *)
Lemma intersect_straddles (ptLat ptLon : Q) (pi pj : Point) :
  intersect ptLat ptLon pi pj = true ->
  (lat pi <= ptLat /\ ptLat < lat pj) \/ (lat pj <= ptLat /\ ptLat < lat pi).
Proof.
  unfold intersect. intros H. apply andb_prop in H as [H _].
  destruct (Qlt_bool ptLat (lat pi)) eqn:Ei,
    (Qlt_bool ptLat (lat pj)) eqn:Ej; try discriminate H.
  - right. apply Qlt_bool_iff in Ei. apply Qlt_bool_false in Ej. auto.
  - left. apply Qlt_bool_iff in Ej. apply Qlt_bool_false in Ei. auto.
Qed.

(** Where the edge meets the point's latitude lies between the longitudes
    of its ends. *)
Lemma meeting_between (y xi yi xj yj : Q) :
  (yi <= y /\ y < yj) \/ (yj <= y /\ y < yi) ->
  exists t, 0 <= t /\ t <= 1 /\
            (xj - xi) * (y - yi) / (yj - yi) + xi == xi + t * (xj - xi).
Proof.
  intros H. exists ((y - yi) / (yj - yi)).
  assert (Hd : ~ yj - yi == 0) by (destruct H; lra).
  split; [|split].
  - destruct H as [[H1 H2]|[H1 H2]].
    + apply Qle_shift_div_l; lra.
    + assert (E : (y - yi) / (yj - yi) == (yi - y) / (yi - yj))
        by (field; lra).
      rewrite E.
      apply Qle_shift_div_l; lra.
  - destruct H as [[H1 H2]|[H1 H2]].
    + apply Qle_shift_div_r; lra.
    + assert (E : (y - yi) / (yj - yi) == (yi - y) / (yi - yj))
        by (field; lra).
      rewrite E.
      apply Qle_shift_div_r; lra.
  - field. exact Hd.
Qed.

Lemma intersect_east (ptLat ptLon : Q) (pi pj : Point) :
  intersect ptLat ptLon pi pj = true ->
  ptLon < lon pi \/ ptLon < lon pj.
Proof.
  intros H. pose proof (intersect_straddles _ _ _ _ H) as Hs.
  unfold intersect in H. apply andb_prop in H as [_ H].
  apply Qlt_bool_iff in H.
  destruct (meeting_between ptLat (lon pi) (lat pi) (lon pj) (lat pj))
    as (t & H0 & H1 & E); [destruct Hs; auto|].
  rewrite E in H.
  destruct (Qlt_le_dec ptLon (lon pi)) as [?|Hi]; [left; assumption|].
  right. nra.
Qed.

Lemma intersect_west (ptLat ptLon : Q) (pi pj : Point) :
  ptLon < lon pi -> ptLon < lon pj ->
  intersect ptLat ptLon pi pj
  = negb (Bool.eqb (Qlt_bool ptLat (lat pi)) (Qlt_bool ptLat (lat pj))).
Proof.
  intros Hi Hj. unfold intersect.
  destruct (negb (Bool.eqb _ _)) eqn:E; [|reflexivity].
  cbn [andb]. apply Qlt_bool_iff.
  assert (Hs : (lat pi <= ptLat /\ ptLat < lat pj) \/
               (lat pj <= ptLat /\ ptLat < lat pi)).
  { destruct (Qlt_bool ptLat (lat pi)) eqn:Ei,
      (Qlt_bool ptLat (lat pj)) eqn:Ej; try discriminate E.
    - right. apply Qlt_bool_iff in Ei. apply Qlt_bool_false in Ej. auto.
    - left. apply Qlt_bool_iff in Ej. apply Qlt_bool_false in Ei. auto. }
  destruct (meeting_between ptLat (lon pi) (lat pi) (lon pj) (lat pj) Hs)
    as (t & H0 & H1 & E').
  rewrite E'.
  assert (P1 : 0 <= (lon pi - ptLon) * (1 - t))
    by (apply Qmult_le_0_compat; lra).
  assert (P2 : 0 <= (lon pj - ptLon) * t) by (apply Qmult_le_0_compat; lra).
  destruct (Qlt_le_dec 0 t) as [Ht|Ht].
  - assert (P3 : 0 < (lon pj - ptLon) * t) by (apply Qmult_lt_0_compat; lra).
    lra.
  - assert (Et : t == 0) by lra. rewrite Et. lra.
Qed.









Lemma intersect_level (ptLat ptLon y x1 x2 : Q) :
  intersect ptLat ptLon {| lat := y; lon := x1 |} {| lat := y; lon := x2 |}
  = false.
Proof.
  unfold intersect. cbn [lat lon]. rewrite Bool.eqb_reflx. reflexivity.
Qed.

(** A vertical edge is counted for the points west of it whose latitude is
    in its half-open latitude range. *)
Lemma intersect_vertical (ptLat ptLon a b x : Q) :
  a < b ->
  (intersect ptLat ptLon {| lat := b; lon := x |} {| lat := a; lon := x |}
   = true <-> (a <= ptLat /\ ptLat < b) /\ ptLon < x) /\
  (intersect ptLat ptLon {| lat := a; lon := x |} {| lat := b; lon := x |}
   = true <-> (a <= ptLat /\ ptLat < b) /\ ptLon < x).
Proof.
  intros Hab. split; split.
  - intros H. pose proof (intersect_straddles _ _ _ _ H) as Hs.
    cbn [lat lon] in Hs. split; [destruct Hs; lra|].
    destruct (intersect_east _ _ _ _ H) as [Hx|Hx]; exact Hx.
  - intros [[H1 H2] H3]. rewrite intersect_west by (cbn [lon]; exact H3).
    cbn [lat]. apply Qlt_bool_iff in H2. rewrite H2.
    assert (E : Qlt_bool ptLat a = false) by (apply Qlt_bool_false; exact H1).
    rewrite E. reflexivity.
  - intros H. pose proof (intersect_straddles _ _ _ _ H) as Hs.
    cbn [lat lon] in Hs. split; [destruct Hs; lra|].
    destruct (intersect_east _ _ _ _ H) as [Hx|Hx]; exact Hx.
  - intros [[H1 H2] H3]. rewrite intersect_west by (cbn [lon]; exact H3).
    cbn [lat]. apply Qlt_bool_iff in H2. rewrite H2.
    assert (E : Qlt_bool ptLat a = false) by (apply Qlt_bool_false; exact H1).
    rewrite E. reflexivity.
Qed.

(** X2.  On the ring of an axis-aligned rectangle [isPointInPolygon] is the
    half-open box test: south and west edges count as inside, north and
    east edges as outside. *)
Theorem isPointInPolygon_rectangle (ptLat ptLon s n w e : Q) :
  s < n -> w < e ->
  (isPointInPolygon ptLat ptLon (rectangle s n w e) = true <->
   (s <= ptLat /\ ptLat < n) /\ (w <= ptLon /\ ptLon < e)).
Proof.
  intros Hsn Hwe. unfold isPointInPolygon, rectangle.
  cbn [last rayCast]. rewrite !intersect_level.
  destruct (intersect_vertical ptLat ptLon s n w Hsn) as [Hw _].
  destruct (intersect_vertical ptLat ptLon s n e Hsn) as [_ He].
  destruct (intersect ptLat ptLon {| lat := n; lon := w |}
              {| lat := s; lon := w |}) eqn:E1;
    destruct (intersect ptLat ptLon {| lat := s; lon := e |}
                {| lat := n; lon := e |}) eqn:E2; cbn.
  - split; [intros H; discriminate H|]. intros [_ [H1 _]].
    destruct Hw as [Hw _]. destruct (Hw eq_refl) as [_ H]. lra.
  - exfalso. destruct Hw as [Hw _]. destruct (Hw eq_refl) as [Hy Hx].
    destruct He as [_ He].
    assert (H : false = true) by (apply He; split; [exact Hy|lra]).
    discriminate H.
  - split; [intros _|reflexivity].
    destruct He as [He _]. destruct (He eq_refl) as [Hy Hx].
    split; [exact Hy|]. split; [|exact Hx].
    destruct (Qlt_le_dec ptLon w) as [Hlt|Hle]; [|exact Hle].
    destruct Hw as [_ Hw]. assert (H : false = true) by (apply Hw; auto).
    discriminate H.
  - split; [intros H; discriminate H|]. intros [Hy [_ H2]].
    destruct He as [_ He]. apply He. auto.
Qed.

Lemma isPointInPolygon_rectangle_witness :
  isPointInPolygon 0 0 (rectangle 0 2 0 2) = true /\
  isPointInPolygon 2 1 (rectangle 0 2 0 2) = false /\
  isPointInPolygon 1 2 (rectangle 0 2 0 2) = false.
Proof.
  pose proof (isPointInPolygon_rectangle 0 0 0 2 0 2) as H1.
  pose proof (isPointInPolygon_rectangle 2 1 0 2 0 2) as H2.
  pose proof (isPointInPolygon_rectangle 1 2 0 2 0 2) as H3.
  split; [|split].
  - apply H1; try reflexivity. repeat split; try reflexivity; discriminate.
  - destruct (isPointInPolygon 2 1 (rectangle 0 2 0 2)) eqn:E; [|reflexivity].
    exfalso. destruct H2 as [H2 _]; try reflexivity.
    destruct (H2 eq_refl) as [[_ H] _]. discriminate H.
  - destruct (isPointInPolygon 1 2 (rectangle 0 2 0 2)) eqn:E; [|reflexivity].
    exfalso. destruct H3 as [H3 _]; try reflexivity.
    destruct (H3 eq_refl) as [_ [_ H]]. discriminate H.
Defined.











End PolygonFacts.

(** ** Polygon area: further facts *)

Section AreaMore.
Local Open Scope Q_scope.








End AreaMore.

(** ** Fallback neighborhoods *)

Section FallbackFacts.
Local Open Scope Q_scope.

Lemma latStep_pos : 0 < latStep.
Proof. reflexivity. Qed.

Lemma lonStep_pos : 0 < lonStep.
Proof. reflexivity. Qed.

Lemma latStep_whole :
  south PORTLAND_BBOX + num 4 * latStep == north PORTLAND_BBOX.
Proof. vm_compute. reflexivity. Qed.

Lemma lonStep_whole :
  west PORTLAND_BBOX + num 4 * lonStep == east PORTLAND_BBOX.
Proof. vm_compute. reflexivity. Qed.

Lemma createGridNeighborhoods_in (nb : Neighborhood) :
  In nb createGridNeighborhoods <->
  exists i j, (i < 4)%nat /\ (j < 4)%nat /\ nb = neighborhoodAt i j.
Proof. apply (in_nested neighborhoodAt 4 4). Qed.

(** X6.  [createGridNeighborhoods] returns 16 neighborhoods in row-major
    order, the one of row [i] and column [j] with id [-(4 i + j + 1)], and
    their boxes cover exactly the region: a point lies in some box if and
    only if it lies in [PORTLAND_BBOX]. *)
Theorem createGridNeighborhoods_tiles_region :
  length createGridNeighborhoods = 16%nat /\
  (forall i j : nat, (i < 4)%nat -> (j < 4)%nat ->
     exists nb, createGridNeighborhoods !! (i * 4 + j)%nat = Some nb /\
                nb_id nb = (- Z.of_nat (i * 4 + j + 1))%Z) /\
  (forall p : Point,
     (exists nb, In nb createGridNeighborhoods /\
                 inExtBounds (nb_bounds nb) p)
     <-> inRegion PORTLAND_BBOX p).
Proof.
  split; [reflexivity|]. split.
  - intros i j Hi Hj. exists (neighborhoodAt i j). split; [|reflexivity].
    apply (lookup_nested neighborhoodAt 4 4 0 i j Hi Hj).
  - intros p. split.
    + intros (nb & Hin & Hb).
      apply createGridNeighborhoods_in in Hin as (i & j & Hi & Hj & ->).
      cbn [neighborhoodAt nb_bounds inExtBounds] in Hb.
      destruct Hb as [[H1 H2] [H3 H4]].
      destruct (strip_inside _ _ _ 4 i latStep_pos Hi H1 H2) as [L1 L2].
      destruct (strip_inside _ _ _ 4 j lonStep_pos Hj H3 H4) as [L3 L4].
      rewrite latStep_whole in L2. rewrite lonStep_whole in L4.
      repeat split; assumption.
    + intros [[H1 H2] [H3 H4]].
      rewrite <- latStep_whole in H2. rewrite <- lonStep_whole in H4.
      destruct (strip_cover _ _ _ 4 ltac:(lia) H1 H2) as (i & Hi & Hi1 & Hi2).
      destruct (strip_cover _ _ _ 4 ltac:(lia) H3 H4) as (j & Hj & Hj1 & Hj2).
      exists (neighborhoodAt i j). split.
      * apply createGridNeighborhoods_in. eauto.
      * cbn [neighborhoodAt nb_bounds inExtBounds]. repeat split; assumption.
Qed.

Lemma createGridNeighborhoods_tiles_region_witness :
  exists nb, createGridNeighborhoods !! 6%nat = Some nb /\
             nb_id nb = (-7)%Z.
Proof.
  destruct createGridNeighborhoods_tiles_region as (_ & H & _).
  destruct (H 1%nat 2%nat) as (nb & Hl & Hid); [lia|lia|].
  exists nb. split; [exact Hl|exact Hid].
Defined.


End FallbackFacts.

(** ** Haversine distance: further facts *)

Section DistanceMore.
Local Open Scope R_scope.

Lemma sin_sqr_neg (x y : R) : x = - y -> sin x * sin x = sin y * sin y.
Proof. intros ->. rewrite sin_neg. ring. Qed.

Lemma calculateDistance_self (lat1 lon1 : R) :
  calculateDistance lat1 lon1 lat1 lon1 = 0.
Proof.
  unfold calculateDistance. cbv zeta.
  replace ((lat1 - lat1) * PI / 180 / 2) with 0 by lra.
  replace ((lon1 - lon1) * PI / 180 / 2) with 0 by lra.
  rewrite sin_0.
  replace (0 * 0 + cos (lat1 * PI / 180) * cos (lat1 * PI / 180) * 0 * 0)
    with 0 by ring.
  rewrite Rminus_0_r, sqrt_0, sqrt_1. unfold atan2.
  destruct (Rlt_dec 0 1) as [_|H]; [|lra].
  replace (0 / 1) with 0 by lra. rewrite atan_0. ring.
Qed.

(** X8.  [calculateDistance] is symmetric in its two points and is zero
    between a point and itself. *)
Theorem calculateDistance_symmetric_zero (lat1 lon1 lat2 lon2 : R) :
  calculateDistance lat1 lon1 lat2 lon2 = calculateDistance lat2 lon2 lat1 lon1
  /\ calculateDistance lat1 lon1 lat1 lon1 = 0.
Proof.
  split; [|apply calculateDistance_self].
  unfold calculateDistance.
  assert (E1 : sin ((lat2 - lat1) * PI / 180 / 2)
               * sin ((lat2 - lat1) * PI / 180 / 2)
               = sin ((lat1 - lat2) * PI / 180 / 2)
                 * sin ((lat1 - lat2) * PI / 180 / 2))
    by (apply sin_sqr_neg; lra).
  assert (E2 : cos (lat1 * PI / 180) * cos (lat2 * PI / 180)
               * sin ((lon2 - lon1) * PI / 180 / 2)
               * sin ((lon2 - lon1) * PI / 180 / 2)
               = cos (lat2 * PI / 180) * cos (lat1 * PI / 180)
                 * sin ((lon1 - lon2) * PI / 180 / 2)
                 * sin ((lon1 - lon2) * PI / 180 / 2)).
  { pose proof (sin_sqr_neg ((lon2 - lon1) * PI / 180 / 2)
                            ((lon1 - lon2) * PI / 180 / 2)) as E.
    rewrite !Rmult_assoc, E by lra. ring. }
  cbv zeta. rewrite E1, E2. reflexivity.
Qed.


End DistanceMore.

(** ** Proximity scorer: further facts *)

Section ScorerMore.
Local Open Scope R_scope.




(** X11.  A cell whose center coincides with a business gets the score
    100 from a scoring pass, whatever other businesses there are. *)
Theorem score_100_at_center (bs : list Business) (cell : Cell) (b : Business) :
  In b bs ->
  biz_lat b = centerLat cell -> biz_lon b = centerLon cell ->
  proximityScore (scoreCell bs cell) = 100.
Proof.
  intros Hin Hlat Hlon.
  assert (Hne : bs <> []) by (intros ->; destruct Hin).
  destruct (scoreCell_nonempty bs cell Hne)
    as (d & b' & _ & _ & _ & Hd & Hmin & ->).
  assert (H0 : distanceTo cell b = 0).
  { unfold distanceTo. rewrite Hlat, Hlon. apply calculateDistance_self. }
  assert (Hle : d <= 0) by (rewrite <- H0; apply Hmin; exact Hin).
  assert (Hge : 0 <= d) by (rewrite Hd; apply calculateDistance_nonneg).
  replace d with 0 by lra.
  replace (- 0 / 0.5) with 0 by lra. rewrite exp_0. lra.
Qed.

Lemma score_100_at_center_witness :
  let c0 := Grid.cellAt PORTLAND_BBOX GRID_LAT_STEP GRID_LON_STEP 0 0 in
  let b := {| biz_id := 2; biz_name := "Center";
              biz_lat := centerLat c0; biz_lon := centerLon c0;
              biz_category := None |} in
  proximityScore (scoreCell [cornerCafe; b] c0) = 100.
Proof.
  intros c0 b. apply (score_100_at_center _ c0 b).
  - right. left. reflexivity.
  - reflexivity.
  - reflexivity.
Defined.



Lemma within_iff (cell : Cell) (b : Business) :
  within cell b = true <->
  inBounds (bounds cell) {| lat := biz_lat b; lon := biz_lon b |}.
Proof.
  unfold within, inBounds. cbn [lat lon].
  rewrite !andb_true_iff, !Qle_bool_iff. tauto.
Qed.

Lemma in_businesses_scoreCell (bs : list Business) (cell : Cell)
    (b : Business) :
  In b bs -> within cell b = true -> In b (businesses (scoreCell bs cell)).
Proof.
  intros Hin Hw. rewrite businesses_scoreCell. apply in_or_app. right.
  apply filter_In. auto.
Qed.

(** X13.  After the aggregate computation every business that lies in the
    region is in [cell.businesses] of at least one cell. *)
Theorem business_in_region_is_counted (st : AppState) (b : Business) :
  In b (allBusinesses st) ->
  inRegion PORTLAND_BBOX {| lat := biz_lat b; lon := biz_lon b |} ->
  exists cell, In cell (gridCells (aggregate st)) /\ In b (businesses cell).
Proof.
  intros Hin Hreg.
  apply region_in_steps, generateGridCells_union in Hreg
    as (c & Hc & Hb).
  exists (scoreCell (allBusinesses st) c). split.
  - unfold aggregate. apply in_calculateProximityScores.
    exists c. split; [exact Hc|reflexivity].
  - apply in_businesses_scoreCell; [exact Hin|].
    apply within_iff. exact Hb.
Qed.

Lemma business_in_region_is_counted_witness :
  let st := loaded [cornerCafe] in
  exists cell, In cell (gridCells (aggregate st)) /\
               In cornerCafe (businesses cell).
Proof.
  intros st. apply (business_in_region_is_counted st cornerCafe).
  - left. reflexivity.
  - repeat split; apply Qle_bool_iff; vm_compute; reflexivity.
Defined.

(** X14.  A business exactly on the edge shared by a cell and its northern
    neighbour is pushed to [businesses] of both cells by a scoring pass. *)
Theorem business_on_shared_edge_in_both (bs : list Business) (b : Business)
    (r c : nat) :
  let lower := Grid.cellAt PORTLAND_BBOX GRID_LAT_STEP GRID_LON_STEP r c in
  let upper := Grid.cellAt PORTLAND_BBOX GRID_LAT_STEP GRID_LON_STEP (S r) c in
  In b bs ->
  (biz_lat b == maxLat (bounds lower))%Q ->
  (minLon (bounds lower) <= biz_lon b)%Q ->
  (biz_lon b <= maxLon (bounds lower))%Q ->
  In b (businesses (scoreCell bs lower)) /\
  In b (businesses (scoreCell bs upper)).
Proof.
  intros lower upper Hin Hlat Hw He.
  subst lower upper. rewrite generateGridCells_bounds in Hlat, Hw, He.
  cbn [maxLat minLon maxLon] in Hlat, Hw, He.
  pose proof GRID_LAT_STEP_pos as Hpos.
  split; (apply in_businesses_scoreCell; [exact Hin|]);
    apply within_iff; rewrite generateGridCells_bounds;
    unfold inBounds; cbn [lat lon minLat maxLat minLon maxLon].
  - repeat split; try assumption; lra.
  - rewrite num_S. repeat split; try assumption; lra.
Qed.

Lemma business_on_shared_edge_in_both_witness :
  let b := {| biz_id := 3; biz_name := "Edge";
              biz_lat := 45.43724; biz_lon := -122.835;
              biz_category := None |} in
  In b (businesses (scoreCell [b]
          (Grid.cellAt PORTLAND_BBOX GRID_LAT_STEP GRID_LON_STEP 0 0))) /\
  In b (businesses (scoreCell [b]
          (Grid.cellAt PORTLAND_BBOX GRID_LAT_STEP GRID_LON_STEP 1 0))).
Proof.
  intros b. apply (business_on_shared_edge_in_both [b] b 0 0).
  - left. reflexivity.
  - vm_compute. reflexivity.
  - apply Qle_bool_iff. vm_compute. reflexivity.
  - apply Qle_bool_iff. vm_compute. reflexivity.
Defined.
End ScorerMore.

(** ** Presentation *)

Section RenderFacts.
Local Open Scope R_scope.

Lemma floor_spec (x : R) : IZR (floor x) <= x < IZR (floor x) + 1.
Proof.
  unfold floor. rewrite minus_IZR. destruct (archimed x) as [H1 H2]. lra.
Qed.

Lemma floor_nonneg (x : R) : 0 <= x -> (0 <= floor x)%Z.
Proof.
  intros Hx. destruct (floor_spec x) as [_ H].
  assert (Hlt : (-1 < floor x)%Z) by (apply lt_IZR; lra). lia.
Qed.

Lemma floor_le (x : R) (n : Z) : x <= IZR n -> (floor x <= n)%Z.
Proof.
  intros Hx. destruct (floor_spec x) as [H _]. apply le_IZR. lra.
Qed.

Lemma floor_IZR (n : Z) : floor (IZR n) = n.
Proof.
  destruct (floor_spec (IZR n)) as [H1 H2].
  apply le_IZR in H1.
  assert (H3 : (n < floor (IZR n) + 1)%Z)
    by (apply lt_IZR; rewrite plus_IZR; exact H2).
  lia.
Qed.

Lemma Math_max_of_acc (xs : list R) (m : R) :
  exists m', fold_left (fun acc x =>
                          match acc with
                          | None => Some x
                          | Some m => Some (Rmax m x)
                          end) xs (Some m) = Some m' /\
             m <= m' /\ (forall x, In x xs -> x <= m') /\
             (m' = m \/ In m' xs).
Proof.
  revert m. induction xs as [|x xs IH]; intros m; cbn [fold_left].
  - exists m. split; [reflexivity|]. split; [lra|]. split; [intros ? []|].
    left. reflexivity.
  - destruct (IH (Rmax m x)) as (m' & -> & Hle & Hall & Hin).
    exists m'. split; [reflexivity|].
    pose proof (Rmax_l m x). pose proof (Rmax_r m x).
    split; [lra|]. split.
    + intros y [<-|Hy]; [lra|apply Hall; exact Hy].
    + destruct Hin as [->|Hin]; [|right; right; exact Hin].
      unfold Rmax. destruct (Rle_dec m x); [right; left|left]; reflexivity.
Qed.

(** [maxProximity] is the largest score among the cells. *)
Lemma maxProximity_spec (cells : list Cell) (cell : Cell) :
  In cell cells ->
  exists m, maxProximity cells = Some m /\
            proximityScore cell <= m /\
            exists top, In top cells /\ proximityScore top = m.
Proof.
  intros Hin. unfold maxProximity, Math_max_of.
  destruct cells as [|c0 cells]; [destruct Hin|].
  cbn [map fold_left].
  destruct (Math_max_of_acc (map proximityScore cells) (proximityScore c0))
    as (m & -> & Hle & Hall & Hm).
  exists m. split; [reflexivity|]. split.
  - destruct Hin as [<-|Hin]; [exact Hle|].
    apply Hall. apply in_map. exact Hin.
  - destruct Hm as [->|Hm].
    + exists c0. split; [left; reflexivity|reflexivity].
    + apply in_map_iff in Hm as (top & <- & Htop).
      exists top. split; [right; exact Htop|reflexivity].
Qed.

Lemma intensity_range (cells : list Cell) (cell : Cell) :
  In cell cells -> 0 <= proximityScore cell ->
  0 <= intensity (maxProximity cells) cell <= 1.
Proof.
  intros Hin H0.
  destruct (maxProximity_spec cells cell Hin) as (m & -> & Hle & _).
  unfold intensity. destruct (Rlt_dec 0 m) as [Hm|_]; [|lra].
  split.
  - apply Rmult_le_pos; [exact H0|]. left. apply Rinv_0_lt_compat. exact Hm.
  - apply Rmult_le_reg_r with m; [exact Hm|].
    unfold Rdiv. rewrite Rmult_assoc, Rinv_l by lra. lra.
Qed.

(** X15.  In the style [renderMap] gives to a scored cell, the opacity
    lies in [0.2, 0.8] and the fill opacity in [0.1, 0.7]; a cell with
    score 0 is drawn in the literal grey, every other cell in an
    [rgb(r, g, b)] colour with [r] in 0..255, [g] in 0..200 and [b] in
    0..100; and a cell holding the maximum score, if positive, is drawn
    [rgb(255, 0, 0)] with opacity 0.8. *)
Theorem gridCellStyle_ranges (st : AppState) (cell : Cell) :
  let cells := gridCells (calculateProximityScores st) in
  let style := gridCellStyle (maxProximity cells) cell in
  In cell cells ->
  (0.2 <= opacity style <= 0.8) /\
  (0.1 <= fillOpacity style <= 0.7) /\
  match fillColor style with
  | Literal s => proximityScore cell = 0 /\ s = "#f0f0f0"%string
  | Rgb r g b =>
      proximityScore cell <> 0 /\
      (0 <= r <= 255)%Z /\ (0 <= g <= 200)%Z /\ (0 <= b <= 100)%Z
  end /\
  (0 < proximityScore cell ->
   maxProximity cells = Some (proximityScore cell) ->
   fillColor style = Rgb 255 0 0 /\ opacity style = 0.8).
Proof.
  intros cells style Hin. subst style.
  assert (Hrange : 0 <= proximityScore cell <= 100).
  { apply in_calculateProximityScores in Hin as (c & _ & ->).
    apply scoreCell_range. }
  pose proof (intensity_range cells cell Hin (proj1 Hrange)) as Hi.
  unfold gridCellStyle.
  destruct (Req_dec_T (proximityScore cell) 0) as [E0|Hne];
    cbn [opacity fillOpacity fillColor].
  - repeat split; try lra.
  - set (t := intensity (maxProximity cells) cell) in *.
    split; [lra|]. split; [lra|]. split.
    + split; [exact Hne|].
      repeat split.
      * apply Z.min_glb; [lia|]. apply floor_nonneg. nra.
      * apply Z.le_min_l.
      * apply Z.min_glb; [lia|]. apply floor_nonneg. nra.
      * etransitivity; [apply Z.le_min_r|]. apply floor_le. lra.
      * apply Z.min_glb; [lia|]. apply floor_nonneg. nra.
      * etransitivity; [apply Z.le_min_r|]. apply floor_le. lra.
    + intros Hpos Hmax.
      assert (Et : t = 1).
      { subst t. rewrite Hmax. unfold intensity.
        destruct (Rlt_dec 0 (proximityScore cell)); [|contradiction].
        apply Rinv_r. lra. }
      rewrite Et.
      replace (1 * 255) with (IZR 255) by lra.
      replace ((1 - 1) * 200) with (IZR 0) by lra.
      replace ((1 - 1) * 100) with (IZR 0) by lra.
      rewrite !floor_IZR. split; [reflexivity|lra].
Qed.

Lemma gridCellStyle_ranges_witness :
  let c0 := Grid.cellAt PORTLAND_BBOX GRID_LAT_STEP GRID_LON_STEP 0 0 in
  let st := {| gridCells := [c0]; allBusinesses := [cornerCafe] |} in
  let cells := gridCells (calculateProximityScores st) in
  let style := gridCellStyle (maxProximity cells) (scoreCell [cornerCafe] c0) in
  (0.2 <= opacity style <= 0.8) /\ (0.1 <= fillOpacity style <= 0.7).
Proof.
  intros c0 st cells style.
  destruct (gridCellStyle_ranges st (scoreCell [cornerCafe] c0))
    as (H1 & H2 & _).
  - left. reflexivity.
  - split; [exact H1|exact H2].
Defined.

(** X16.  After the aggregate computation, looking a cell up by id as
    [highlightGridCell] does finds, for every id below
    [numRows * numCols], the cell with that id, which is the cell of row
    [id / numCols] and column [id mod numCols], wherever the sort has put
    it; for any other id it finds nothing. *)
Theorem findCell_by_id (st : AppState) (cellId : nat) :
  ((cellId < numRows * numCols)%nat ->
   exists cell, findCell (gridCells (aggregate st)) cellId = Some cell /\
                cell_id cell = cellId /\
                row cell = (cellId / numCols)%nat /\
                col cell = (cellId mod numCols)%nat) /\
  ((numRows * numCols <= cellId)%nat ->
   findCell (gridCells (aggregate st)) cellId = None).
Proof.
  assert (Hcells : forall cell, In cell (gridCells (aggregate st)) ->
            exists r c, (r < numRows)%nat /\ (c < numCols)%nat /\
                        cell_id cell = (r * numCols + c)%nat /\
                        row cell = r /\ col cell = c).
  { intros cell Hin. unfold aggregate in Hin.
    apply in_calculateProximityScores in Hin as (c0 & Hc0 & ->).
    cbn [gridCells] in Hc0.
    apply generateGridCells_in in Hc0 as (r & c & Hr & Hc & ->).
    exists r, c. repeat split; assumption. }
  pose proof numCols_eq as Hn.
  split.
  - intros Hlt. unfold findCell.
    destruct (List.find _ _) as [cell|] eqn:E.
    + apply find_some in E as [Hin Hid]. apply Nat.eqb_eq in Hid.
      destruct (Hcells cell Hin) as (r & c & Hr & Hc & Eid & Er & Ec).
      exists cell. split; [reflexivity|]. split; [exact Hid|].
      rewrite <- Hid, Eid, Er, Ec. split.
      * rewrite Nat.div_add_l by lia. rewrite Nat.div_small by lia. lia.
      * rewrite Nat.add_comm, Nat.Div0.mod_add. symmetry.
        apply Nat.mod_small. lia.
    + exfalso.
      set (r := (cellId / numCols)%nat). set (c := (cellId mod numCols)%nat).
      assert (Hc : (c < numCols)%nat) by (apply Nat.mod_upper_bound; lia).
      assert (Hr : (r < numRows)%nat)
        by (apply Nat.Div0.div_lt_upper_bound; lia).
      assert (Hin : In (scoreCell (allBusinesses st)
                          (Grid.cellAt PORTLAND_BBOX GRID_LAT_STEP
                             GRID_LON_STEP r c))
                       (gridCells (aggregate st))).
      { unfold aggregate. apply in_calculateProximityScores.
        eexists. split; [|reflexivity]. cbn [gridCells allBusinesses].
        apply generateGridCells_in. eauto. }
      pose proof (find_none _ _ E _ Hin) as Hf. cbn beta in Hf.
      apply Nat.eqb_neq in Hf. apply Hf.
      cbn [scoreCell cell_id Grid.cellAt]. fold numCols.
      subst r c. pose proof (Nat.div_mod_eq cellId numCols). lia.
  - intros Hge. unfold findCell.
    destruct (List.find _ _) as [cell|] eqn:E; [|reflexivity].
    exfalso. apply find_some in E as [Hin Hid]. apply Nat.eqb_eq in Hid.
    destruct (Hcells cell Hin) as (r & c & Hr & Hc & Eid & _).
    assert ((r * numCols + c < numRows * numCols)%nat) by nia. lia.
Qed.

Lemma findCell_by_id_witness :
  exists cell, findCell (gridCells (aggregate (loaded [cornerCafe]))) 37
               = Some cell /\
               cell_id cell = 37%nat /\ row cell = 1%nat /\ col cell = 1%nat.
Proof.
  destruct (findCell_by_id (loaded [cornerCafe]) 37) as [H _].
  destruct H as (cell & H1 & H2 & H3 & H4).
  - rewrite numRows_eq, numCols_eq. lia.
  - exists cell. rewrite numCols_eq in H3, H4.
    repeat split; assumption.
Defined.

Lemma sorted_filter {A : Type} (key : A -> R) (f : A -> bool) (l : list A) :
  StronglySorted (fun a b => key b <= key a) l ->
  StronglySorted (fun a b => key b <= key a) (List.filter f l).
Proof.
  induction 1 as [|x l Hs IH Hall]; cbn [List.filter]; [constructor|].
  destruct (f x); [|exact IH].
  constructor; [exact IH|].
  rewrite List.Forall_forall in *. intros y Hy.
  apply filter_In in Hy as [Hy _]. apply Hall. exact Hy.
Qed.

Lemma in_drop {A : Type} (n : nat) (l : list A) (y : A) :
  In y (drop n l) -> In y l.
Proof.
  revert n. induction l as [|z l IH]; intros n H; destruct n; cbn in H;
    try assumption. right. apply (IH n). exact H.
Qed.

Lemma in_take {A : Type} (n : nat) (l : list A) (y : A) :
  In y (take n l) -> In y l.
Proof.
  revert n. induction l as [|z l IH]; intros n H; destruct n; cbn in H;
    try contradiction. destruct H as [<-|H]; [left; reflexivity|].
  right. apply (IH n). exact H.
Qed.

Lemma sorted_take_drop {A : Type} (key : A -> R) (n : nat) (l : list A)
    (x y : A) :
  StronglySorted (fun a b => key b <= key a) l ->
  In x (take n l) -> In y (drop n l) -> key y <= key x.
Proof.
  intros Hs. revert n. induction Hs as [|z l Hs IH Hall]; intros n Hx Hy.
  - destruct n; destruct Hx.
  - destruct n as [|n]; [destruct Hx|].
    cbn [take drop] in Hx, Hy. destruct Hx as [<-|Hx].
    + rewrite List.Forall_forall in Hall. apply Hall.
      apply (in_drop n). exact Hy.
    + apply (IH n); assumption.
Qed.

(** X17.  The list [renderGridCellList] shows after a scoring pass has at
    most 50 cells, each with a positive score, taken from the front of the
    ranking; and every cell that is not shown has a score no higher than
    every cell that is shown. *)
Theorem topCells_are_the_best (st : AppState) :
  let cells := gridCells (calculateProximityScores st) in
  (length (topCells cells) <= 50)%nat /\
  (forall c, In c (topCells cells) -> In c cells /\ 0 < proximityScore c) /\
  (forall c c', In c (topCells cells) -> In c' cells ->
                ~ In c' (topCells cells) ->
                proximityScore c' <= proximityScore c).
Proof.
  intros cells. unfold topCells.
  set (positive := fun cell : Cell =>
                     if Rlt_dec 0 (proximityScore cell) then true else false).
  assert (Hpos : forall c, positive c = true <-> 0 < proximityScore c).
  { intros c. unfold positive. destruct (Rlt_dec 0 (proximityScore c));
      split; intros; try assumption; try reflexivity; try discriminate.
    contradiction. }
  assert (Hs : StronglySorted (fun a b => proximityScore b <= proximityScore a)
                 (List.filter positive cells)).
  { apply sorted_filter. apply Sorted_StronglySorted.
    - intros x y z Hxy Hyz. lra.
    - subst cells. cbn [calculateProximityScores gridCells].
      change compareFn with (byKeyDesc proximityScore). apply sort_sorted. }
  split; [|split].
  - rewrite length_take. lia.
  - intros c Hc. apply in_take, filter_In in Hc as [Hc Hp].
    split; [exact Hc|apply Hpos; exact Hp].
  - intros c c' Hc Hc' Hnot.
    destruct (Rlt_dec 0 (proximityScore c')) as [Hp|Hn].
    + assert (Hf : In c' (List.filter positive cells))
        by (apply filter_In; split; [exact Hc'|apply Hpos; exact Hp]).
      rewrite <- (take_drop 50 (List.filter positive cells)) in Hf.
      apply in_app_or in Hf as [Hf|Hf]; [contradiction|].
      exact (sorted_take_drop proximityScore 50 _ c c' Hs Hc Hf).
    + apply in_take, filter_In in Hc as [_ Hp]. apply Hpos in Hp. lra.
Qed.
End RenderFacts.

(** ** Neighborhood loaders *)

Section RelationFacts.

(** [chainWays] can only throw on a single way without coordinates. *)
Lemma chainWays_TypeError (ws : list Way) :
  chainWays ws = TypeError -> exists w, ws = [w] /\ coords w = [].
Proof.
  destruct ws as [|w [|w' ws]]; cbn [chainWays]; try discriminate.
  intros H. exists w. split; [reflexivity|].
  destruct (coords w) as [|p l] eqn:E; [reflexivity|exfalso].
  cbn [head] in H.
  destruct (last (p :: l)) eqn:El.
  - destruct (_ || _); discriminate H.
  - apply last_None in El. discriminate El.
Qed.

Lemma wayOfData_coords (waysMap : gmap Z OsmWay) (nodesMap : gmap Z OsmNode)
    (m : Member) (w : Way) :
  wayOfData waysMap nodesMap m = Some w -> coords w <> [].
Proof.
  unfold wayOfData. destruct (waysMap !! m_ref m) as [way|]; [|discriminate].
  destruct (way_nodes way) as [[|n nodes]|]; try discriminate.
  destruct (omap _ _) as [|p l]; [discriminate|].
  intros [= <-]. discriminate.
Qed.

Lemma wayOfCoords_coords (wayNodesMap : gmap Z (list Point)) (m : Member)
    (w : Way) :
  wayOfCoords wayNodesMap m = Some w -> coords w <> [].
Proof.
  unfold wayOfCoords. destruct (wayNodesMap !! m_ref m) as [[|p l]|];
    try discriminate.
  intros [= <-]. discriminate.
Qed.

Lemma omap_all {A B : Type} (f : A -> option B) (P : B -> Prop) (l : list A) :
  (forall a b, f a = Some b -> P b) -> forall b, In b (omap f l) -> P b.
Proof.
  intros H b Hb. apply list_elem_of_In, list_elem_of_omap in Hb
    as (a & _ & Ha). exact (H a b Ha).
Qed.

Lemma dist_self (p : Point) : dist p {| lat := lat p; lon := lon p |} = 0%R.
Proof.
  unfold dist. cbn [lat lon].
  replace ((Q2R (lat p) - Q2R (lat p)) ^ 2 +
           (Q2R (lon p) - Q2R (lon p)) ^ 2)%R with 0%R by ring.
  apply sqrt_0.
Qed.

(** What the shared end of the builders returns. *)
Lemma ensureClosed_ring (chained : option (list Point)) (ring : list Point) :
  ensureClosed chained = Some ring ->
  3 <= length ring /\
  exists first last,
    head ring = Some first /\ List.last ring first = last /\
    (dist first last <= 0.0001)%R.
Proof.
  unfold ensureClosed. destruct chained as [c|]; [|discriminate].
  destruct (length c <? 3) eqn:E; [discriminate|].
  apply Nat.ltb_ge in E.
  destruct c as [|first rest]; [cbn in E; lia|].
  cbn [head]. destruct (last (first :: rest)) as [l|] eqn:El.
  - destruct (Rlt_dec 0.0001 (dist first l)) as [Hfar|Hnear].
    + intros [= <-].
      split; [cbn [app length] in E |- *; rewrite length_app; lia|].
      exists first, {| lat := lat first; lon := lon first |}.
      split; [reflexivity|].
      split; [apply (List.last_last (first :: rest))|].
      rewrite dist_self. lra.
    + intros [= <-]. split; [exact E|].
      exists first, l. split; [reflexivity|]. split; [|lra].
      apply last_Some in El as (l' & El). rewrite El. apply List.last_last.
  - apply last_None in El. discriminate El.
Qed.

Lemma chainOuterWays_ring (ways : list Way) :
  (forall w, In w ways -> coords w <> []) ->
  exists geometry,
    chainOuterWays ways = Returns geometry /\
    forall ring, geometry = Some ring ->
      3 <= length ring /\
      exists first last,
        head ring = Some first /\ List.last ring first = last /\
        (dist first last <= 0.0001)%R.
Proof.
  intros Hne. unfold chainOuterWays.
  destruct ways as [|w ws]; [exists None; split; [reflexivity|discriminate]|].
  destruct (chainWays (w :: ws)) as [chained|] eqn:E.
  - exists (ensureClosed chained). split; [reflexivity|].
    intros ring Hr. apply (ensureClosed_ring chained). exact Hr.
  - exfalso. apply chainWays_TypeError in E as (w' & Hw & Hc).
    apply (Hne w'); [rewrite Hw; left; reflexivity|exact Hc].
Qed.

(** X18.  Both geometry builders never throw; they return null for a
    relation without members; and a ring they return has at least 3
    points and ends within 0.0001 degrees (Euclidean) of where it
    starts. *)
Theorem buildGeometry_returns_closed_ring (relation : Relation)
    (waysMap : gmap Z OsmWay) (nodesMap : gmap Z OsmNode)
    (wayNodesMap : gmap Z (list Point)) :
  let closed (result : JsResult (option (list Point))) :=
    exists geometry,
      result = Returns geometry /\
      forall ring, geometry = Some ring ->
        3 <= length ring /\
        exists first last,
          head ring = Some first /\ List.last ring first = last /\
          (dist first last <= 0.0001)%R in
  closed (buildGeometryFromRelationData relation waysMap nodesMap) /\
  closed (buildGeometryFromRelationWithWays relation wayNodesMap) /\
  (default [] (rel_members relation) = [] ->
   buildGeometryFromRelationData relation waysMap nodesMap = Returns None /\
   buildGeometryFromRelationWithWays relation wayNodesMap = Returns None).
Proof.
  cbn zeta.
  unfold buildGeometryFromRelationData, buildGeometryFromRelationWithWays.
  destruct (rel_members relation) as [[|m ms]|]; cbn [default].
  - split; [|split]; try (exists None; split; [reflexivity|discriminate]).
    intros _. split; reflexivity.
  - split; [|split; [|discriminate]].
    + apply chainOuterWays_ring. apply omap_all. apply wayOfData_coords.
    + apply chainOuterWays_ring. apply omap_all. apply wayOfCoords_coords.
  - split; [|split]; try (exists None; split; [reflexivity|discriminate]).
    intros _. split; reflexivity.
Qed.

Lemma keepNeighborhood_neighborhoodOf (rel : Relation)
    (geometry : option (list Point)) :
  keepNeighborhood (neighborhoodOf rel geometry)
  = match neighborhoodOf rel geometry with Some _ => true | None => false end.
Proof.
  unfold neighborhoodOf. destruct geometry as [g|]; [|reflexivity].
  destruct (length g <? 3); [reflexivity|].
  cbn [keepNeighborhood nb_area].
  destruct (Rlt_dec 0.001 (calculateArea g)) as [_|Hn]; [reflexivity|].
  exfalso. apply Hn.
  assert (H : (0.01 <= calculateArea g)%R).
  { unfold calculateArea. destruct (length g <? 3)%nat.
    - apply Rle_refl.
    - apply Rmax_r. }
  lra.
Qed.

Lemma mapRelations_total (build : Relation -> JsResult (option (list Point)))
    (rels : list Relation) :
  (forall rel, build rel <> TypeError) ->
  exists ns, mapRelations build rels = Returns ns /\
    omap (fun n => n) (List.filter keepNeighborhood ns)
    = omap (fun rel => match build rel with
                       | Returns geometry => neighborhoodOf rel geometry
                       | TypeError => None
                       end) rels.
Proof.
  intros Hb. induction rels as [|rel rels (ns & E & Hns)].
  - exists []. split; reflexivity.
  - cbn [mapRelations]. destruct (build rel) as [g|] eqn:Eg;
      [|destruct (Hb rel Eg)].
    rewrite E. eexists. split; [reflexivity|].
    cbn [List.filter omap list_omap]. rewrite keepNeighborhood_neighborhoodOf.
    rewrite Eg. fold (@list_omap Relation Neighborhood).
    fold (@list_omap (option Neighborhood) Neighborhood).
    change (@list_omap) with (@omap list _) in *.
    destruct (neighborhoodOf rel g); cbn [omap list_omap];
      change (@list_omap) with (@omap list _) in *; rewrite Hns; reflexivity.
Qed.

Lemma buildGeometryFromRelationData_total (relation : Relation)
    (waysMap : gmap Z OsmWay) (nodesMap : gmap Z OsmNode) :
  buildGeometryFromRelationData relation waysMap nodesMap <> TypeError.
Proof.
  unfold buildGeometryFromRelationData.
  destruct (rel_members relation) as [[|m ms]|]; try discriminate.
  destruct (chainOuterWays_ring
              (omap (wayOfData waysMap nodesMap)
                 (List.filter isOuterWay (m :: ms)))) as (g & -> & _);
    [|discriminate].
  apply omap_all. apply wayOfData_coords.
Qed.

Lemma buildGeometryFromRelationWithWays_total (relation : Relation)
    (wayNodesMap : gmap Z (list Point)) :
  buildGeometryFromRelationWithWays relation wayNodesMap <> TypeError.
Proof.
  unfold buildGeometryFromRelationWithWays.
  destruct (rel_members relation) as [[|m ms]|]; try discriminate.
  destruct (chainOuterWays_ring
              (omap (wayOfCoords wayNodesMap)
                 (List.filter isOuterWay (m :: ms)))) as (g & -> & _);
    [|discriminate].
  apply omap_all. apply wayOfCoords_coords.
Qed.

(** X19.  In the relation loaders the final test [n.area > 0.001] never
    rejects a neighborhood: the list they build holds, in order, one
    neighborhood for every relation that passes the tag filter and whose
    geometry builder returns a ring of at least 3 points, because
    [calculateArea] never returns less than 0.01. *)
Theorem area_test_never_rejects (withQuarter : bool)
    (relations : list Relation)
    (waysMap : gmap Z OsmWay) (nodesMap : gmap Z OsmNode)
    (wayNodesMap : gmap Z (list Point)) :
  neighborhoodsOfRelations withQuarter
    (fun rel => buildGeometryFromRelationData rel waysMap nodesMap) relations
  = Returns
      (omap (fun rel =>
               match buildGeometryFromRelationData rel waysMap nodesMap with
               | Returns geometry => neighborhoodOf rel geometry
               | TypeError => None
               end)
            (List.filter (isNeighborhoodRelation withQuarter) relations)) /\
  neighborhoodsOfRelations withQuarter
    (fun rel => buildGeometryFromRelationWithWays rel wayNodesMap) relations
  = Returns
      (omap (fun rel =>
               match buildGeometryFromRelationWithWays rel wayNodesMap with
               | Returns geometry => neighborhoodOf rel geometry
               | TypeError => None
               end)
            (List.filter (isNeighborhoodRelation withQuarter) relations)).
Proof.
  unfold neighborhoodsOfRelations. split.
  - destruct (mapRelations_total
                (fun rel => buildGeometryFromRelationData rel waysMap nodesMap)
                (List.filter (isNeighborhoodRelation withQuarter) relations))
      as (ns & -> & ->).
    + intros rel. apply buildGeometryFromRelationData_total.
    + reflexivity.
  - destruct (mapRelations_total
                (fun rel => buildGeometryFromRelationWithWays rel wayNodesMap)
                (List.filter (isNeighborhoodRelation withQuarter) relations))
      as (ns & -> & ->).
    + intros rel. apply buildGeometryFromRelationWithWays_total.
    + reflexivity.
Qed.

(** X20.  Whatever its sources give or throw, [loadNeighborhoods] returns
    at least one neighborhood; when every source gives an empty list or
    throws, it returns the 16 fallback neighborhoods. *)
Theorem loadNeighborhoods_never_empty
    (primary byBBox withGeom portland geoJson altGeom altPortland
       : Outcome (list Neighborhood)) :
  loadNeighborhoods primary byBBox withGeom portland geoJson
                    altGeom altPortland <> [] /\
  (emptyOrFails primary -> emptyOrFails byBBox -> emptyOrFails withGeom ->
   emptyOrFails portland -> emptyOrFails geoJson ->
   emptyOrFails altGeom -> emptyOrFails altPortland ->
   loadNeighborhoods primary byBBox withGeom portland geoJson
                     altGeom altPortland = createGridNeighborhoods).
Proof.
  assert (Hgrid : createGridNeighborhoods <> []).
  { intros E. apply (f_equal (@length _)) in E. discriminate E. }
  assert (Hrec : recover altGeom altPortland <> []).
  { unfold recover. destruct altGeom as [[|? ?]|];
      destruct altPortland as [[|? ?]|]; try exact Hgrid; discriminate. }
  split.
  - unfold loadNeighborhoods.
    destruct primary as [[|? ?]|]; [| |exact Hrec];
      (destruct byBBox as [[|? ?]|]; [| |try exact Hrec]);
      (destruct withGeom as [[|? ?]|]; [| |try exact Hrec]);
      (destruct portland as [[|? ?]|]; [| |try exact Hrec]);
      (destruct geoJson as [[|? ?]|]; [| |try exact Hrec]);
      try exact Hgrid; try discriminate.
  - intros [-> | ->] [-> | ->] [-> | ->] [-> | ->] [-> | ->]
           [-> | ->] [-> | ->]; reflexivity.
Qed.

Lemma loadNeighborhoods_never_empty_witness :
  loadNeighborhoods (Gives []) (Gives []) Throws (Gives []) (Gives [])
                    (Gives []) Throws = createGridNeighborhoods.
Proof.
  destruct (loadNeighborhoods_never_empty
              (Gives []) (Gives []) Throws (Gives []) (Gives [])
              (Gives []) Throws) as [_ H].
  apply H; first [left; reflexivity | right; reflexivity].
Defined.
End RelationFacts.

(** ** Business loaders *)

Section LoaderFacts.
Variable toLowerCase : string -> string.
Variable toFixed6 : Q -> string.
Variable filterFn : gmap string string -> bool.

Lemma candidate_key (el : Element) (k : string) (e : Entry) :
  candidate toLowerCase toFixed6 filterFn el = Some (k, e) ->
  k = keyOf toFixed6 e /\
  isExcludedChain toLowerCase (Some (en_name e)) = false /\
  filterFn (default ∅ (el_tags el)) = true /\
  en_type e = "business"%string /\ en_id e = el_id el.
Proof.
  unfold Loader.candidate.
  destruct (filterFn (default ∅ (el_tags el))) eqn:Ef; [|discriminate].
  cbn [negb].
  match goal with
  | |- match ?c with _ => _ end = _ -> _ => destruct c as [[la lo]|]
  end; [|discriminate].
  match goal with
  | |- (if isExcludedChain toLowerCase (Some ?n) then _ else _) = _ -> _ =>
      destruct (isExcludedChain toLowerCase (Some n)) eqn:Ex
  end; [discriminate|].
  intros [= <- <-]. cbn [en_name en_type en_id]. repeat split. exact Ex.
Qed.

Lemma hasKey_iff (m : list (string * Entry)) (k : string) :
  hasKey m k = true <-> In k (map fst m).
Proof.
  unfold hasKey. rewrite existsb_exists, in_map_iff. split.
  - intros (kv & Hin & E). apply String.eqb_eq in E. eauto.
  - intros (kv & E & Hin). exists kv. split; [exact Hin|].
    apply String.eqb_eq. exact E.
Qed.

(** The invariant of the element loop. *)
Lemma fold_visitElement (elements : list Element)
    (m : list (string * Entry)) :
  NoDup (map fst m) ->
  let m' :=
    fold_left (visitElement toLowerCase toFixed6 filterFn) elements m in
  NoDup (map fst m') /\
  (exists more, m' = m ++ more) /\
  (forall k e, In (k, e) m' ->
     In (k, e) m \/
     exists el, In el elements /\
                candidate toLowerCase toFixed6 filterFn el = Some (k, e)) /\
  (forall el k e,
     In el elements ->
     candidate toLowerCase toFixed6 filterFn el = Some (k, e) ->
     In k (map fst m')).
Proof.
  revert m. induction elements as [|el els IH]; intros m Hnd; cbn zeta.
  - cbn [fold_left]. split; [exact Hnd|]. split; [exists []; symmetry;
      apply app_nil_r|]. split; [auto|]. intros el k e [].
  - cbn [fold_left].
    set (m1 := visitElement toLowerCase toFixed6 filterFn m el).
    assert (Hstep :
              NoDup (map fst m1) /\
              (exists more, m1 = m ++ more) /\
              (forall k e,
                 In (k, e) m1 ->
                 In (k, e) m \/
                 candidate toLowerCase toFixed6 filterFn el = Some (k, e)) /\
              (forall k e,
                 candidate toLowerCase toFixed6 filterFn el = Some (k, e) ->
                 In k (map fst m1))).
    { subst m1. unfold Loader.visitElement.
      destruct (candidate toLowerCase toFixed6 filterFn el)
        as [[k e]|] eqn:Ec.
      - destruct (hasKey m k) eqn:Eh.
        + split; [exact Hnd|]. split; [exists []; symmetry; apply app_nil_r|].
          split; [auto|]. intros k' e' [= <- <-]. apply hasKey_iff. exact Eh.
        + split.
          { rewrite map_app. cbn [map fst]. apply NoDup_app.
            split; [exact Hnd|].
            split; [|apply NoDup_singleton].
            intros x Hx Hx'. apply list_elem_of_In in Hx.
            apply list_elem_of_singleton in Hx'. subst x.
            apply hasKey_iff in Hx. congruence. }
          split; [eexists; reflexivity|]. split.
          * intros k' e' H. apply in_app_or in H as [H|[H|[]]];
              [left; exact H|right; congruence].
          * intros k' e' [= <- <-]. rewrite map_app. apply in_or_app.
            right. left. reflexivity.
      - split; [exact Hnd|]. split; [exists []; symmetry; apply app_nil_r|].
        split; [auto|]. intros k e H. discriminate H. }
    destruct Hstep as (S1 & (more1 & S2) & S3 & S4).
    destruct (IH _ S1) as (I1 & (more2 & I2) & I3 & I4).
    split; [exact I1|]. split.
    { exists (more1 ++ more2). rewrite I2, S2, app_assoc. reflexivity. }
    split.
    + intros k e H. destruct (I3 k e H) as [H'|(el' & Hel & Hc)].
      * destruct (S3 k e H') as [?|Hc]; [left; assumption|].
        right. exists el. split; [left; reflexivity|exact Hc].
      * right. exists el'. split; [right; exact Hel|exact Hc].
    + intros el' k e [<-|Hel] Hc.
      * rewrite I2, map_app. apply in_or_app. left. exact (S4 k e Hc).
      * exact (I4 el' k e Hel Hc).
Qed.

(** X21.  [loadBusinessesByCategory] returns at most one business per key
    (the two coordinates printed with 6 decimals): the keys of the result
    are pairwise different, every result comes from an element that passed
    the category filter and the chain test, and every such element has its
    key in the result. *)
Theorem loadBusinessesByCategory_one_per_key (elements : list Element) :
  let result :=
    loadBusinessesByCategory toLowerCase toFixed6 filterFn (Gives elements) in
  NoDup (map (keyOf toFixed6) result) /\
  (forall e, In e result ->
     exists el, In el elements /\
                candidate toLowerCase toFixed6 filterFn el
                = Some (keyOf toFixed6 e, e)) /\
  (forall el k e,
     In el elements ->
     candidate toLowerCase toFixed6 filterFn el = Some (k, e) ->
     exists e', In e' result /\ keyOf toFixed6 e' = k).
Proof.
  cbn zeta. unfold loadBusinessesByCategory.
  destruct (fold_visitElement elements [] (NoDup_nil_2))
    as (H1 & _ & H3 & H4).
  set (m := fold_left (visitElement toLowerCase toFixed6 filterFn)
                      elements []) in *.
  assert (Hkey : forall k e, In (k, e) m -> k = keyOf toFixed6 e).
  { intros k e H. destruct (H3 k e H) as [[]|(el & _ & Hc)].
    apply candidate_key in Hc. apply Hc. }
  assert (Hmap : map (keyOf toFixed6) (map snd m) = map fst m).
  { rewrite map_map. apply map_ext_in. intros [k e] H. cbn [fst snd].
    symmetry. apply Hkey. exact H. }
  split; [rewrite Hmap; exact H1|]. split.
  - intros e He. apply in_map_iff in He as ([k e'] & <- & Hin).
    cbn [snd]. destruct (H3 k e' Hin) as [[]|(el & Hel & Hc)].
    exists el. split; [exact Hel|].
    rewrite <- (Hkey k e' Hin). exact Hc.
  - intros el k e Hel Hc. pose proof (H4 el k e Hel Hc) as Hk.
    apply in_map_iff in Hk as ([k' e'] & Ek & Hin). cbn [fst] in Ek. subst k'.
    exists e'. split; [apply in_map_iff; exists (k, e'); auto|].
    symmetry. apply Hkey. exact Hin.
Qed.

Lemma loaded_entry_not_chain (data : Outcome (list Element)) (e : Entry) :
  In e (loadBusinessesByCategory toLowerCase toFixed6 filterFn data) ->
  isExcludedChain toLowerCase (Some (en_name e)) = false.
Proof.
  destruct data as [elements|]; [|intros []].
  intros He. unfold loadBusinessesByCategory in He.
  apply in_map_iff in He as ([k e'] & <- & Hin). cbn [snd].
  destruct (fold_visitElement elements [] NoDup_nil_2) as (_ & _ & H3 & _).
  destruct (H3 k e' Hin) as [[]|(el & _ & Hc)].
  apply candidate_key in Hc. apply Hc.
Qed.
End LoaderFacts.

Section LoaderMore.
Variable toLowerCase : string -> string.
Variable toFixed6 : Q -> string.

Lemma filter_all {A : Type} (f : A -> bool) (l : list A) :
  (forall a, In a l -> f a = true) -> List.filter f l = l.
Proof.
  induction l as [|a l IH]; intros H; [reflexivity|].
  cbn [List.filter]. rewrite (H a (or_introl eq_refl)). f_equal.
  apply IH. intros b Hb. apply H. right. exact Hb.
Qed.

(** X22.  The final chain filter of [loadAllBusinesses] removes nothing:
    the result is the businesses of all categories, each with its category
    id, in the order of the categories, because
    [loadBusinessesByCategory] has applied the same test to the same
    name. *)
Theorem loadAllBusinesses_filter_keeps_all
    (categories : list (string * (gmap string string -> bool)
                        * Outcome (list Element))) :
  loadAllBusinesses toLowerCase toFixed6 categories
  = concat
      (map (fun '(categoryId, filterFn, data) =>
              map (fun b => {| entry := b; category := categoryId |})
                  (loadBusinessesByCategory toLowerCase toFixed6
                     filterFn data)) categories).
Proof.
  unfold loadAllBusinesses. apply filter_all. intros b Hb.
  apply in_concat in Hb as (l & Hl & Hb).
  apply in_map_iff in Hl as ([[categoryId filterFn] data] & <- & _).
  apply in_map_iff in Hb as (e & <- & He). cbn [entry].
  rewrite (loaded_entry_not_chain toLowerCase toFixed6 filterFn data e He).
  reflexivity.
Qed.

Lemma existsb_app_l {A : Type} (f : A -> bool) (l extra : list A) :
  existsb f l = true -> existsb f (l ++ extra) = true.
Proof. intros H. rewrite existsb_app, H. reflexivity. Qed.

(** X23.  Every name that [isExcludedChain] of [app.js] rejects is rejected
    by [isExcludedChain] of [fetch-data.js] as well, so the file written by
    [fetch-data.js] holds no business that the application would
    exclude. *)
Theorem fetch_excludes_what_app_excludes (name : option string) :
  isExcludedChain toLowerCase name = true ->
  fetchIsExcludedChain toLowerCase name = true.
Proof.
  unfold isExcludedChain, fetchIsExcludedChain. intros H.
  change FETCH_EXCLUDED_CHAINS
    with (EXCLUDED_CHAINS
            ++ [ "autozone"; "bi-mart"; "bi mart"; "target"; "michael's";
                 "michaels"; "ross" ]%string).
  rewrite (existsb_app_l _ _ _ H). reflexivity.
Qed.

End LoaderMore.

Lemma fetch_excludes_what_app_excludes_witness :
  fetchIsExcludedChain (fun s => s) (Some "subway sandwiches"%string) = true.
Proof.
  apply fetch_excludes_what_app_excludes. vm_compute. reflexivity.
Defined.

(** ** Boundary reconstructor: further facts *)

Section ChainMore.
Variable waySegments : list Way.

Lemma point_eta (p : Point) : {| lat := lat p; lon := lon p |} = p.
Proof. destruct p. reflexivity. Qed.

Lemma in_tail {A : Type} (x : A) (l : list A) : In x (tail l) -> In x l.
Proof. destruct l; [intros []|]. intros H. right. exact H. Qed.

Lemma in_head {A : Type} (x : A) (l : list A) : head l = Some x -> In x l.
Proof. destruct l; [discriminate|]. intros [= ->]. left. reflexivity. Qed.

Lemma append_points (st : ChainState) (way : Way) (reversed : bool) :
  In way waySegments ->
  (forall p, In p (result st) -> fromSegments waySegments p) ->
  forall p, In p (result (append st way reversed)) ->
            fromSegments waySegments p.
Proof.
  intros Hw Hst p. unfold append.
  destruct reversed; cbn [result]; intros H;
    apply in_app_or in H as [H|H]; try (apply Hst; exact H);
    apply in_tail in H; exists way; split; try exact Hw; try exact H.
  apply in_rev in H. exact H.
Qed.

Lemma extend_points (fuel : nat) (st : ChainState) :
  (forall p, In p (result st) -> fromSegments waySegments p) ->
  forall p, In p (result (extend fuel waySegments st)) ->
            fromSegments waySegments p.
Proof.
  revert st. induction fuel as [|fuel IH]; intros st Hst; [exact Hst|].
  cbn [extend]. destruct (_ <? _); [|exact Hst].
  destruct (findNext _ _ _) as [[way reversed]|] eqn:F; [|exact Hst].
  apply findNext_fresh in F as [_ Hw].
  apply IH. apply append_points; assumption.
Qed.

Lemma chainFrom_points (seed : Way) :
  In seed waySegments ->
  forall p, In p (result (chainFrom waySegments seed)) ->
            fromSegments waySegments p.
Proof.
  intros Hs. unfold chainFrom. apply extend_points. cbn [result].
  intros p Hp. exists seed. split; assumption.
Qed.

Lemma popTrailingRev_incl (r : list Point) (p : Point) :
  In p (popTrailingRev r) -> In p r.
Proof.
  induction r as [|a r IH]; [intros []|].
  cbn [popTrailingRev]. destruct r as [|b r]; [auto|].
  destruct (coordsMatch (Some a) (Some b)); [|auto].
  intros H. right. apply IH. exact H.
Qed.

Lemma popTrailing_incl (l : list Point) (p : Point) :
  In p (popTrailing l) -> In p l.
Proof.
  unfold popTrailing. intros H. apply in_rev in H.
  apply popTrailingRev_incl in H. apply in_rev. exact H.
Qed.

Lemma closeChain_incl (l : list Point) (p : Point) :
  In p (closeChain l) -> In p l.
Proof.
  unfold closeChain. destruct (coordsMatch _ _); [apply popTrailing_incl|].
  destruct (head l) as [first|] eqn:E; [|apply popTrailing_incl].
  intros H. apply in_app_or in H as [H|[<-|[]]].
  - apply popTrailing_incl. exact H.
  - rewrite point_eta. apply in_head. exact E.
Qed.

Lemma removeConsecutive_incl (prev : option Point) (l : list Point)
    (p : Point) :
  In p (removeConsecutive prev l) -> In p l.
Proof.
  revert prev. induction l as [|a l IH]; intros prev; [intros []|].
  cbn [removeConsecutive]. destruct prev as [q|].
  - destruct (coordsMatch (Some a) (Some q)).
    + intros H. right. exact (IH _ H).
    + intros [<-|H]; [left; reflexivity|right; exact (IH _ H)].
  - intros [<-|H]; [left; reflexivity|right; exact (IH _ H)].
Qed.

Lemma forceClose_incl (l : list Point) (p : Point) :
  In p (forceClose l) -> In p l.
Proof.
  unfold forceClose. destruct (head l) as [first|] eqn:E; [|auto].
  destruct (last l) as [lst|]; [|auto].
  destruct (coordsMatch _ _); [auto|].
  intros H. apply in_app_or in H as [H|[<-|[]]]; [exact H|].
  rewrite point_eta. apply in_head. exact E.
Qed.

Lemma useBest_points (bestChain : option (list Point)) (ring : list Point) :
  (forall c p, bestChain = Some c -> In p c -> fromSegments waySegments p) ->
  useBest bestChain = Some ring ->
  forall p, In p ring -> fromSegments waySegments p.
Proof.
  intros Hb. unfold useBest. destruct bestChain as [c|]; [|discriminate].
  destruct (3 <=? length c); [|discriminate].
  destruct (3 <=? length _); [|discriminate].
  intros [= <-] p Hp. apply (Hb c p eq_refl).
  apply (removeConsecutive_incl None). apply forceClose_incl. exact Hp.
Qed.

Lemma trySeeds_points (seeds : list Way) (bestChain : option (list Point))
    (bestUsed : nat) (ring : list Point) :
  (forall s, In s seeds -> In s waySegments) ->
  (forall c p, bestChain = Some c -> In p c -> fromSegments waySegments p) ->
  trySeeds waySegments seeds bestChain bestUsed = Some ring ->
  forall p, In p ring -> fromSegments waySegments p.
Proof.
  revert bestChain bestUsed.
  induction seeds as [|seed rest IH]; intros bestChain bestUsed Hs Hb.
  - cbn [trySeeds]. apply useBest_points. exact Hb.
  - cbn [trySeeds].
    assert (Hseed : forall p, In p (result (chainFrom waySegments seed)) ->
                              fromSegments waySegments p)
      by (apply chainFrom_points, Hs; left; reflexivity).
    assert (Hrest : forall s, In s rest -> In s waySegments)
      by (intros s H; apply Hs; right; exact H).
    assert (Htrack :
              (if bestUsed <? size (used (chainFrom waySegments seed))
               then trySeeds waySegments rest
                      (Some (result (chainFrom waySegments seed)))
                      (size (used (chainFrom waySegments seed)))
               else trySeeds waySegments rest bestChain bestUsed) = Some ring ->
              forall p, In p ring -> fromSegments waySegments p).
    { destruct (bestUsed <? _).
      - apply IH; [exact Hrest|]. intros c p [= <-]. apply Hseed.
      - apply IH; [exact Hrest|exact Hb]. }
    destruct (_ =? _); [|exact Htrack].
    destruct (coordsMatch _ _).
    { intros [= <-]. exact Hseed. }
    destruct (0 <? _); [|exact Htrack].
    intros [= <-] p Hp. apply Hseed. apply closeChain_incl. exact Hp.
Qed.

End ChainMore.

(** X24.  Every point of a ring returned by [chainWays] is a coordinate of
    one of the input segments: the reconstructor copies points and never
    makes up a new one. *)
Theorem chainWays_points_from_segments (waySegments : list Way)
    (ring : list Point) :
  chainWays waySegments = Returns (Some ring) ->
  forall p, In p ring -> fromSegments waySegments p.
Proof.
  unfold chainWays. destruct waySegments as [|w [|w' ws]].
  - discriminate.
  - destruct (head (coords w)) as [first|] eqn:Eh; [|discriminate].
    destruct (last (coords w)) as [lst|]; [|discriminate].
    destruct (_ || _); intros [= <-] p Hp.
    + exists w. split; [left; reflexivity|].
      apply in_app_or in Hp as [Hp|[<-|[]]]; [exact Hp|].
      rewrite point_eta. apply in_head. exact Eh.
    + exists w. split; [left; reflexivity|exact Hp].
  - intros H.
    apply (f_equal (fun r => match r with
                             | Returns x => x
                             | TypeError => None
                             end)) in H.
    cbv beta iota in H. revert H.
    apply (trySeeds_points (w :: w' :: ws)); [auto|discriminate].
Qed.

Lemma chainWays_points_from_segments_witness :
  chainWays joinedWays = Returns (Some [ptA; ptC; ptB; ptA]) /\
  fromSegments joinedWays ptC.
Proof.
  split; [vm_compute; reflexivity|].
  apply (chainWays_points_from_segments joinedWays [ptA; ptC; ptB; ptA]).
  - vm_compute. reflexivity.
  - right. left. reflexivity.
Defined.

Section ChainClosed.
Local Open Scope Q_scope.

Lemma Qlt_bool_proper (a a' t : Q) : a == a' -> Qlt_bool a t = Qlt_bool a' t.
Proof.
  intros E. unfold Qlt_bool. f_equal. apply Qleb_comp; [reflexivity|exact E].
Qed.

Lemma coordsMatch_sym (a b : option Point) :
  coordsMatch a b = coordsMatch b a.
Proof.
  destruct a as [a|], b as [b|]; try reflexivity. unfold coordsMatch.
  rewrite (Qabs_Qminus (lat a) (lat b)), (Qabs_Qminus (lon a) (lon b)).
  reflexivity.
Qed.

Lemma coordsMatch_same (p q : Point) :
  lat p == lat q -> lon p == lon q -> coordsMatch (Some p) (Some q) = true.
Proof.
  intros E1 E2. unfold coordsMatch.
  assert (D1 : lat p - lat q == 0) by (rewrite E1; ring).
  assert (D2 : lon p - lon q == 0) by (rewrite E2; ring).
  assert (Z1 : Qabs (lat p - lat q) == 0) by (rewrite D1; reflexivity).
  assert (Z2 : Qabs (lon p - lon q) == 0) by (rewrite D2; reflexivity).
  rewrite (Qlt_bool_proper _ _ _ Z1), (Qlt_bool_proper _ _ _ Z2).
  reflexivity.
Qed.

Lemma head_rev {A : Type} (l : list A) : head (rev l) = last l.
Proof.
  induction l as [|a l IH]; [reflexivity|].
  cbn [rev]. destruct l as [|b l]; [reflexivity|].
  rewrite last_cons_cons, <- IH.
  destruct (rev (b :: l)) eqn:E; [|reflexivity].
  apply (f_equal (@length _)) in E. rewrite length_rev in E. discriminate E.
Qed.

Lemma last_rev {A : Type} (l : list A) : last (rev l) = head l.
Proof. rewrite <- (rev_involutive l) at 2. symmetry. apply head_rev. Qed.

Lemma popTrailingRev_last (r : list Point) :
  last (popTrailingRev r) = last r.
Proof.
  induction r as [|a r IH]; [reflexivity|].
  cbn [popTrailingRev]. destruct r as [|b r]; [reflexivity|].
  destruct (coordsMatch (Some a) (Some b)); [|reflexivity].
  rewrite IH, last_cons_cons. reflexivity.
Qed.

Lemma head_popTrailing (l : list Point) : head (popTrailing l) = head l.
Proof.
  unfold popTrailing. rewrite head_rev, popTrailingRev_last. apply last_rev.
Qed.

Lemma closeChain_closed (l : list Point) :
  l <> [] -> coordsMatch (last (closeChain l)) (head (closeChain l)) = true.
Proof.
  intros Hne. unfold closeChain.
  destruct (coordsMatch (last (popTrailing l)) (head (popTrailing l))) eqn:E;
    [exact E|].
  destruct (head l) as [first|] eqn:Eh;
    [|destruct l; [congruence|discriminate]].
  rewrite last_snoc.
  assert (Hh : head (popTrailing l ++ [ {| lat := lat first;
                                           lon := lon first |} ])
               = Some first).
  { pose proof (head_popTrailing l) as Hp. rewrite Eh in Hp.
    destruct (popTrailing l); [discriminate Hp|exact Hp]. }
  rewrite Hh. apply coordsMatch_same; reflexivity.
Qed.

Lemma forceClose_closed (c : list Point) :
  c <> [] -> coordsMatch (last (forceClose c)) (head (forceClose c)) = true.
Proof.
  intros Hne. unfold forceClose.
  destruct (head c) as [first|] eqn:Eh;
    [|destruct c; [congruence|discriminate]].
  destruct (last c) as [lst|] eqn:El;
    [|apply last_None in El; congruence].
  destruct (coordsMatch (Some first) (Some lst)) eqn:E.
  - rewrite Eh, El, coordsMatch_sym. exact E.
  - rewrite last_snoc.
    assert (Hh : head (c ++ [ {| lat := lat first; lon := lon first |} ])
                 = Some first) by (destruct c; [congruence|exact Eh]).
    rewrite Hh. apply coordsMatch_same; reflexivity.
Qed.

Lemma useBest_closed (bestChain : option (list Point)) (ring : list Point) :
  useBest bestChain = Some ring ->
  coordsMatch (last ring) (head ring) = true.
Proof.
  unfold useBest. destruct bestChain as [c|]; [|discriminate].
  destruct (3 <=? length c)%nat; [|discriminate].
  destruct (3 <=? length _)%nat eqn:E; [|discriminate].
  intros [= <-]. apply forceClose_closed. intros Hnil.
  rewrite Hnil in E. discriminate E.
Qed.
End ChainClosed.

Section ChainClosedWays.
Variable waySegments : list Way.
Hypothesis wellFormed : forall way, In way waySegments -> wellFormedWay way.

Lemma last_app_nonempty {A : Type} (l1 l2 : list A) :
  l2 <> [] -> last (l1 ++ l2) = last l2.
Proof.
  intros Hne. destruct (exists_last Hne) as (l' & x & ->).
  rewrite app_assoc, !last_snoc. reflexivity.
Qed.

Lemma append_end (st : ChainState) (way : Way) (reversed : bool) :
  In way waySegments ->
  currentEnd (append st way reversed) = last (result (append st way reversed)).
Proof using wellFormed.
  intros Hw. destruct (wellFormed way Hw) as (Hlen & Hs & He).
  unfold append. destruct reversed; cbn [currentEnd result].
  - destruct (rev (coords way)) as [|a [|b t]] eqn:E.
    + apply (f_equal (@length _)) in E. rewrite length_rev in E.
      cbn in E. lia.
    + apply (f_equal (@length _)) in E. rewrite length_rev in E.
      cbn in E. lia.
    + cbn [tail]. rewrite last_app_nonempty by discriminate.
      rewrite Hs, <- last_rev, E, last_cons_cons. reflexivity.
  - destruct (coords way) as [|a [|b t]] eqn:E; [cbn in Hlen; lia..|].
    cbn [tail]. rewrite last_app_nonempty by discriminate.
    rewrite He, last_cons_cons. reflexivity.
Qed.

Lemma extend_end (fuel : nat) (st : ChainState) :
  currentEnd st = last (result st) ->
  currentEnd (extend fuel waySegments st)
  = last (result (extend fuel waySegments st)).
Proof using wellFormed.
  revert st. induction fuel as [|fuel IH]; intros st Hst; [exact Hst|].
  cbn [extend]. destruct (_ <? _)%nat; [|exact Hst].
  destruct (findNext _ _ _) as [[way reversed]|] eqn:F; [|exact Hst].
  apply findNext_fresh in F as [_ Hw]. apply IH. apply append_end. exact Hw.
Qed.

Lemma trySeeds_closed (seeds : list Way) (bestChain : option (list Point))
    (bestUsed : nat) (ring : list Point) :
  trySeeds waySegments seeds bestChain bestUsed = Some ring ->
  coordsMatch (last ring) (head ring) = true.
Proof using wellFormed.
  revert bestChain bestUsed.
  induction seeds as [|seed rest IH]; intros bestChain bestUsed.
  - cbn [trySeeds]. apply useBest_closed.
  - cbn [trySeeds].
    assert (Htrack :
              (if (bestUsed <? size (used (chainFrom waySegments seed)))%nat
               then trySeeds waySegments rest
                      (Some (result (chainFrom waySegments seed)))
                      (size (used (chainFrom waySegments seed)))
               else trySeeds waySegments rest bestChain bestUsed) = Some ring ->
              coordsMatch (last ring) (head ring) = true)
      by (destruct (_ <? _)%nat; apply IH).
    destruct (_ =? _)%nat; [|exact Htrack].
    destruct (coordsMatch (currentEnd _) _) eqn:E.
    { intros [= <-]. rewrite <- E. f_equal. symmetry.
      unfold chainFrom. apply extend_end. reflexivity. }
    destruct (0 <? _)%nat eqn:El; [|exact Htrack].
    intros [= <-]. apply closeChain_closed. intros Hnil.
    rewrite Hnil in El. discriminate El.
Qed.
End ChainClosedWays.

(** X25.  For segments of at least two coordinates whose [startNode] and
    [endNode] are their first and last coordinates, every ring that
    [chainWays] returns is closed: its last point matches its first point
    within the tolerance. *)
Theorem chainWays_ring_closed (waySegments : list Way) (ring : list Point) :
  (forall way, In way waySegments -> wellFormedWay way) ->
  chainWays waySegments = Returns (Some ring) ->
  coordsMatch (last ring) (head ring) = true.
Proof.
  intros Hwf. unfold chainWays. destruct waySegments as [|w [|w' ws]].
  - discriminate.
  - destruct (head (coords w)) as [first|] eqn:Eh; [|discriminate].
    destruct (last (coords w)) as [lst|] eqn:El; [|discriminate].
    destruct (negb (Qeq_bool (lat first) (lat lst))
              || negb (Qeq_bool (lon first) (lon lst))) eqn:E;
      intros [= <-].
    + rewrite last_snoc.
      assert (Hh : head (coords w ++ [ {| lat := lat first;
                                          lon := lon first |} ])
                   = Some first)
        by (destruct (coords w); [discriminate Eh|exact Eh]).
      rewrite Hh. apply coordsMatch_same; reflexivity.
    + rewrite Eh, El. apply orb_false_elim in E as [E1 E2].
      apply negb_false_iff, Qeq_bool_eq in E1.
      apply negb_false_iff, Qeq_bool_eq in E2.
      apply coordsMatch_same; symmetry; assumption.
  - intros H.
    apply (f_equal (fun r => match r with
                             | Returns x => x
                             | TypeError => None
                             end)) in H.
    cbv beta iota in H. revert H.
    apply (trySeeds_closed (w :: w' :: ws) Hwf).
Qed.

Lemma chainWays_ring_closed_witness :
  coordsMatch (last [ptA; ptC; ptB; ptA]) (head [ptA; ptC; ptB; ptA]) = true.
Proof.
  apply (chainWays_ring_closed joinedWays).
  - intros way [<-|[<-|[]]]; repeat split; cbn; lia.
  - vm_compute. reflexivity.
Defined.
